(** * Grid searches of [a_star.py]: [MinTurns] and [ShortestRoute]

    A shallow embedding of the two search classes and of the data they
    share, followed by the properties of the searches.

    Python integers are unbounded, so coordinates, lengths and turn counts
    are [Z].  Positions are pairs [(row, col)].  The dictionaries [route] and
    [turn_count] are [gmap]s, the set [visited] is a [gset].

    [heapq] is used on tuples [(priority, (row, col))], which Python orders
    lexicographically.  That order is total and two tuples that compare
    equal are the same value, so the only observable behaviour of the heap
    is the multiset it holds and the fact that [heappop] removes its least
    element.  The heap is therefore kept as a list sorted by that order:
    [heappush] inserts in place and [heappop] takes the head. *)

From Stdlib Require Import ZArith Ascii String Sorted.
From stdpp Require Import gmap list strings fin_sets.

#[local] Set Warnings "-clear-no-such-hyp".

Local Open Scope Z_scope.

(** ** Outcomes of running Python code *)

Inductive exn := IndexError | KeyError | TypeError.

(** What a call does: it returns a value, raises, or is still running when
    the fuel given to the model is used up. *)
Inductive outcome (A : Type) :=
| Returns (a : A)
| Raises (e : exn)
| OutOfFuel.
Arguments Returns {A} a.
Arguments Raises {A} e.
Arguments OutOfFuel {A}.

(** A call that cannot loop: a value or an exception. *)
Inductive checked (A : Type) :=
| Ok (a : A)
| Err (e : exn).
Arguments Ok {A} a.
Arguments Err {A} e.

(** One step of a loop: go on with a new configuration, leave the function
    with a value, or raise. *)
Inductive transition (C R : Type) :=
| Next (c : C)
| Halt (r : R)
| Fail (e : exn)
| Hang.                   (* a nested loop that does not end *)
Arguments Next {C R} c.
Arguments Halt {C R} r.
Arguments Fail {C R} e.
Arguments Hang {C R}.

Definition finish {C A R} (f : A → R) (o : outcome A) : transition C R :=
  match o with
  | Returns a => Halt (f a)
  | Raises e => Fail e
  | OutOfFuel => Hang
  end.

Section Machine.
Context {C R : Type} (step : C → transition C R).

(** Running the loop for at most [fuel] steps. *)
Fixpoint run (fuel : nat) (c : C) : outcome R :=
  match fuel with
  | O => OutOfFuel
  | S n =>
      match step c with
      | Next c' => run n c'
      | Halt r => Returns r
      | Fail e => Raises e
      | Hang => OutOfFuel
      end
  end.

(** The configuration after [n] steps, when the loop is still running. *)
Fixpoint steps (n : nat) (c : C) : option C :=
  match n with
  | O => Some c
  | S n' =>
      match step c with
      | Next c' => steps n' c'
      | _ => None
      end
  end.

(** Configurations the loop can be in when started from [c0]. *)
Inductive reachable (c0 : C) : C → Prop :=
| reachable_start : reachable c0 c0
| reachable_step c c' : reachable c0 c → step c = Next c' → reachable c0 c'.
End Machine.

(** ** Positions, the grid and the frontier *)

Abbreviation pos := (Z * Z)%type.
Abbreviation grid := (list string).

(** [grid[r][c]] for indices that passed the bounds test (so both are
    non-negative); [None] is Python's IndexError on a short row. *)
Definition cell (g : grid) (r c : Z) : option ascii :=
  match g !! Z.to_nat r with
  | Some row => String.get (Z.to_nat c) row
  | None => None
  end.

(** [zip([0, -1, 0, 1], [1, 0, -1, 0])] as pairs [(y, x)]. *)
Definition offsets : list (Z * Z) := [(0, 1); (-1, 0); (0, -1); (1, 0)].

(** The out-of-grid test of both [find_neighbors]. *)
Definition outside (limit r c : Z) : bool :=
  (limit <? r) || (r <? 0) || (limit <? c) || (c <? 0).

Definition is_barrier (ch : ascii) : bool := Ascii.eqb ch "x"%char.

(** Python's order on [(priority, (row, col))]. *)
Abbreviation entry := (Z * (Z * Z))%type.

Definition entry_leb (a b : entry) : bool :=
  let '(pa, (ra, ca)) := a in
  let '(pb, (rb, cb)) := b in
  (pa <? pb) || ((pa =? pb) && ((ra <? rb) || ((ra =? rb) && (ca <=? cb)))).

Fixpoint heappush (h : list entry) (e : entry) : list entry :=
  match h with
  | [] => [e]
  | e' :: h' => if entry_leb e e' then e :: h else e' :: heappush h' e
  end.

(** ** Paths of the grid graph, for stating what the searches should find *)

Definition in_grid (g : grid) (p : pos) : Prop :=
  0 ≤ p.1 < Z.of_nat (length g) ∧ 0 ≤ p.2 < Z.of_nat (length g).

Definition is_open (g : grid) (p : pos) : Prop :=
  in_grid g p ∧ ∃ ch, cell g p.1 p.2 = Some ch ∧ is_barrier ch = false.

(** A square grid: as many characters in each row as there are rows. *)
Definition square (g : grid) : Prop :=
  Forall (λ row, String.length row = length g) g.

Definition adjacent (p q : pos) : Prop :=
  Z.abs (p.1 - q.1) + Z.abs (p.2 - q.2) = 1.

(** [q] can be entered from [p]: one step along an axis onto an open cell. *)
Definition edge (g : grid) (p q : pos) : Prop := adjacent p q ∧ is_open g q.

(** [connected g s e]: [e] is reached from [s] through open cells.  As in
    the code, which never looks at the cell it starts from, [s] itself is
    not tested; callers are to pass an open start. *)
Inductive connected (g : grid) (s : pos) : pos → Prop :=
| connected_refl : connected g s s
| connected_step p q : connected g s p → edge g p q → connected g s q.

Definition in_gridb (g : grid) (p : pos) : bool :=
  negb (outside (Z.of_nat (length g) - 1) p.1 p.2).

Definition is_openb (g : grid) (p : pos) : bool :=
  in_gridb g p &&
  match cell g p.1 p.2 with Some ch => negb (is_barrier ch) | None => false end.

Definition adjacentb (p q : pos) : bool :=
  Z.abs (p.1 - q.1) + Z.abs (p.2 - q.2) =? 1.

(** [linked g p l]: the cells of [l] are open and each is one step from
    the one before, the first from [p]. *)
Fixpoint linked (g : grid) (p : pos) (l : list pos) : bool :=
  match l with
  | [] => true
  | q :: l' => adjacentb p q && is_openb g q && linked g q l'
  end.

(** [valid_path g s e l]: [l] lists the cells of a walk from [s] to [e]
    over open cells. *)
Definition valid_path (g : grid) (s e : pos) (l : list pos) : bool :=
  match l with
  | [] => false
  | p :: l' =>
      bool_decide (p = s) && is_openb g s && linked g p l' &&
      bool_decide (last l = Some e)
  end.

(** Axis of a step between two cells. *)
Inductive axis := horizontal | vertical.

Definition axis_eqb (a b : axis) : bool :=
  match a, b with
  | horizontal, horizontal | vertical, vertical => true
  | _, _ => false
  end.

Definition step_axis (p q : pos) : axis :=
  if p.1 =? q.1 then horizontal else vertical.

(** Number of axis changes between consecutive steps of a walk. *)
Fixpoint path_turns (l : list pos) : Z :=
  match l with
  | p :: ((q :: r :: _) as l') =>
      (if axis_eqb (step_axis p q) (step_axis q r) then 0 else 1) + path_turns l'
  | _ => 0
  end.

(** Every cell a search can touch: the grid's cells and the start. *)
Definition cells (g : grid) : list pos :=
  list_prod (seqZ 0 (Z.of_nat (length g))) (seqZ 0 (Z.of_nat (length g))).

Definition universe (g : grid) (s : pos) : gset pos :=
  {[s]} ∪ list_to_set (cells g).

(** The heap is ordered by priority. *)
Definition prio_le (a b : entry) : Prop := a.1 ≤ b.1.

Section Chain.
Context {V : Type} (pred : V → option pos).

(** [chain rt p l]: following the predecessors stored in [rt] from [p]
    visits exactly the cells [l] and stops at an entry without
    predecessor. *)
Inductive chain (rt : gmap pos V) : pos → list pos → Prop :=
| chain_end p v : rt !! p = Some v → pred v = None → chain rt p [p]
| chain_link p v q l :
    rt !! p = Some v → pred v = Some q → chain rt q l → chain rt p (p :: l).
End Chain.

(** Steps granted to a search on [g]; both searches stay below it. *)
Definition search_fuel (g : grid) : nat :=
  (10 * (length g * length g + 1) + 2)%nat.

(** ** ShortestRoute *)

Module ShortestRoute.

Inductive result :=
| PathLength (n : Z)     (* [len(path)] *)
| NoPathFound.           (* [('No path found.', [])] *)

Record state := State {
  visited : gset pos;
  route : gmap pos (Z * option pos);
  open_pos : list entry
}.

(** The [while] loop is either at its head, or inside the [for] loop over
    the neighbours of [curr_pos] with the running value of [length]. *)
Inductive config :=
| AtWhile (st : state)
| InFor (st : state) (length : Z) (curr_pos : pos) (todo : list pos).

Section WithSelf.
Context (grid_ : grid) (start_pos end_pos : pos).

(** [find_neighbors]: the loop over [offsets], from the offset list
    that remains. *)
Fixpoint scan_neighbors (limit : Z) (curr_pos : pos) (offs : list (Z * Z))
  : checked (list pos) :=
  match offs with
  | [] => Ok []
  | (y, x) :: offs' =>
      let r := curr_pos.1 + y in
      let c := curr_pos.2 + x in
      if outside limit r c then scan_neighbors limit curr_pos offs'
      else
        match cell grid_ r c with
        | None => Err IndexError
        | Some ch =>
            if is_barrier ch then scan_neighbors limit curr_pos offs'
            else
              match scan_neighbors limit curr_pos offs' with
              | Ok neighbors => Ok ((r, c) :: neighbors)
              | Err e => Err e
              end
        end
  end.

Definition find_neighbors (curr_pos : pos) : checked (list pos) :=
  scan_neighbors (Z.of_nat (length grid_) - 1) curr_pos offsets.

(** [make_path]: the walk over [route] from [curr_pos], collecting
    [path].  A walk over a cyclic [route] would not end; [fuel] bounds
    the number of iterations of the model. *)
Fixpoint walk (fuel : nat) (rt : gmap pos (Z * option pos))
    (curr_pos : option pos) (path : list pos) : outcome (list pos) :=
  match curr_pos with
  | None => Returns path
  | Some p =>
      match fuel with
      | O => OutOfFuel
      | S n =>
          match rt !! p with
          | None => Raises KeyError
          | Some (_, prev) => walk n rt prev (path ++ [p])
          end
      end
  end.

(** [make_path] when the walk starts at [p]: [len(path)] after the
    [reverse]. *)
Definition make_path_from (fuel : nat) (rt : gmap pos (Z * option pos))
    (p : pos) : outcome Z :=
  match walk fuel rt (Some p) [] with
  | Returns path => Returns (Z.of_nat (length (reverse path)))
  | Raises e => Raises e
  | OutOfFuel => OutOfFuel
  end.

(** Enough iterations for any walk that does not repeat a key. *)
Definition make_path (rt : gmap pos (Z * option pos)) : outcome Z :=
  make_path_from (size rt) rt end_pos.

(** Body of the [for] loop for one [neighbor]. *)
Definition relax (st : state) (length : Z) (curr_pos neighbor : pos)
  : state * Z :=
  if bool_decide (neighbor ∈ visited st) then (st, length)
  else
    let length := length + 1 in
    let open_pos' := heappush (open_pos st) (length, neighbor) in
    let old_route := route st !! neighbor in
    let route1 :=
      match old_route with
      | Some (old_len, _) =>
          if length <? old_len then <[neighbor := (length, Some curr_pos)]> (route st)
          else route st
      | None => route st
      end in
    let route2 :=
      match old_route with
      | None => <[neighbor := (length, Some curr_pos)]> route1
      | Some _ => route1
      end in
    (State (visited st) route2 open_pos', length).

(** One step of [search]: at the head of the [while] loop, the test of
    [open_pos], the [heappop] and what follows it up to the [for] loop; inside
    the [for] loop, its body for the next neighbour. *)
Definition step (c : config) : transition config result :=
  match c with
  | AtWhile st =>
      match open_pos st with
      | [] => Halt NoPathFound
      | (length, curr_pos) :: rest =>
          if bool_decide (curr_pos = end_pos) then
            finish PathLength (make_path (route st))
          else if bool_decide (curr_pos ∈ visited st) then
            Next (AtWhile (State (visited st) (route st) rest))
          else
            match find_neighbors curr_pos with
            | Err e => Fail e
            | Ok neighbors =>
                Next (InFor (State ({[curr_pos]} ∪ visited st) (route st) rest)
                            length curr_pos neighbors)
            end
      end
  | InFor st length curr_pos [] => Next (AtWhile st)
  | InFor st length curr_pos (neighbor :: todo) =>
      let '(st', length') := relax st length curr_pos neighbor in
      Next (InFor st' length' curr_pos todo)
  end.

(** State on entry to the [while] loop. *)
Definition init : config :=
  AtWhile (State ∅ {[start_pos := (1, None)]} [(1, start_pos)]).

Definition search_for (fuel : nat) : outcome result := run step fuel init.

(** [search], with the number of steps that every run stays below
    (see [searches_terminate]). *)
Definition search : outcome result := search_for (search_fuel grid_).
(** *** Invariant of the loop *)

Definition cfg_state (c : config) : state :=
  match c with AtWhile st | InFor st _ _ _ => st end.

Definition cfg_todo (c : config) : list pos :=
  match c with AtWhile _ => [] | InFor _ _ _ todo => todo end.

(** What decreases at every step: cells still to finalise, heap entries
    still to pop, neighbours still to handle. *)
Definition measure (c : config) : nat :=
  (10 * size (universe grid_ start_pos ∖ visited (cfg_state c))
   + length (open_pos (cfg_state c)) + 2 * length (cfg_todo c)
   + match c with AtWhile _ => 0 | InFor _ _ _ _ => 1 end)%nat.

Record wf_state (st : state) : Prop := {
  wf_start : route st !! start_pos = Some (1, None);
  wf_heap : ∀ l p, (l, p) ∈ open_pos st → is_Some (route st !! p);
  wf_pred : ∀ p v q, route st !! p = Some (v, Some q) →
      q ∈ visited st ∧ p ≠ start_pos ∧ edge grid_ q p;
  wf_root : ∀ p v, route st !! p = Some (v, None) → p = start_pos;
  wf_chain : ∀ p, p ∈ visited st →
      ∃ l, chain snd (route st) p l ∧ NoDup l ∧ ∀ x, x ∈ l → x ∈ visited st;
  wf_end : end_pos ∉ visited st;
  wf_conn : ∀ p, is_Some (route st !! p) → connected grid_ start_pos p
}.

Definition wf_config (c : config) : Prop :=
  match c with
  | AtWhile st =>
      wf_state st ∧
      (start_pos ∈ visited st ∨ (visited st = ∅ ∧ open_pos st = [(1, start_pos)]))
  | InFor st _ curr_pos todo =>
      wf_state st ∧ start_pos ∈ visited st ∧ curr_pos ∈ visited st ∧
      (∀ q, q ∈ todo → edge grid_ curr_pos q) ∧ (length todo ≤ 4)%nat
  end.
(** What the predecessor links of [route] satisfy in configuration [c]:
    an entry written by the next step belongs to a cell not yet finalised
    and points to a finalised, adjacent, open cell; the start is the only
    key without predecessor; and the walk of [make_path] from any key
    returns a path without repetition that ends at the start. *)
Definition links_back (c : config) : Prop :=
  (∀ c' p v o,
     step c = Next c' →
     route (cfg_state c') !! p = Some (v, o) →
     route (cfg_state c) !! p ≠ Some (v, o) →
     (p ∉ visited (cfg_state c)) ∧
     (∃ q, o = Some q ∧ q ∈ visited (cfg_state c) ∧ adjacent q p ∧
           is_open grid_ q)) ∧
  (∀ p, (∃ v, route (cfg_state c) !! p = Some (v, None)) ↔ p = start_pos) ∧
  (∀ p, is_Some (route (cfg_state c) !! p) →
     ∃ path,
       walk (size (route (cfg_state c))) (route (cfg_state c)) (Some p) []
         = Returns path ∧
       head path = Some p ∧ last path = Some start_pos ∧ NoDup path).
(** The frontier covers the border of [visited]: an open cell next to a
    finalised cell is finalised, waits in the heap, or is a neighbour the
    [for] loop has yet to handle. *)
Definition closed (c : config) : Prop :=
  ∀ p q, p ∈ visited (cfg_state c) → edge grid_ p q →
    q ∈ visited (cfg_state c) ∨
    (∃ l, (l, q) ∈ open_pos (cfg_state c)) ∨
    match c with
    | AtWhile _ => False
    | InFor _ _ curr_pos todo => p = curr_pos ∧ q ∈ todo
    end.
End WithSelf.
End ShortestRoute.

(** ** MinTurns *)

Module MinTurns.

Inductive result :=
| Path (turns path_length : Z)   (* [(len(turn_coords), path_length)] *)
| NoPathFound.                   (* [('No path found.', [])] *)

Record state := State {
  visited : gset pos;
  route : gmap pos (option (Z * pos));
  turn_count : gmap pos Z;
  open_pos : list entry
}.

Inductive config :=
| AtWhile (st : state)
| InFor (st : state) (turns_so_far : Z) (curr_pos : pos)
        (todo : list (pos * bool)).

(** Variables of the loop of [make_path].  [prev_is_end] records whether
    [prev_pos] is the object [self.end_pos], which the loop tests with
    [is]: it is on entry, and never afterwards, when [prev_pos] is a tuple
    stored in [route]. *)
Record walk_state := WalkState {
  w_curr_pos : pos;
  w_prev_pos : pos;
  w_prev_is_end : bool;
  w_x : Z;
  w_turn_coords : list pos;
  w_path_length : Z
}.

(** [p[x]] for [x] 0 or 1. *)
Definition coord (p : pos) (x : Z) : Z := if x =? 0 then p.1 else p.2.

Section WithSelf.
Context (grid_ : grid) (start_pos end_pos : pos).

(** [is_turn] for the step from [curr_pos] by the offset row [y]. *)
Definition is_turn (curr_pos : pos) (prev_pos : option (Z * pos)) (y : Z)
  : checked bool :=
  if bool_decide (curr_pos = start_pos) then Ok false
  else
    match prev_pos with
    | None => Err TypeError
    | Some (_, from) =>
        let direction :=
          if bool_decide (curr_pos ≠ from) && (curr_pos.1 =? from.1)
          then horizontal else vertical in
        let movement := if negb (y =? 0) then vertical else horizontal in
        Ok (negb (axis_eqb movement direction))
    end.

Fixpoint scan_neighbors (limit : Z) (curr_pos : pos)
    (prev_pos : option (Z * pos)) (offs : list (Z * Z))
  : checked (list (pos * bool)) :=
  match offs with
  | [] => Ok []
  | (y, x) :: offs' =>
      let r := curr_pos.1 + y in
      let c := curr_pos.2 + x in
      if outside limit r c then scan_neighbors limit curr_pos prev_pos offs'
      else
        match cell grid_ r c with
        | None => Err IndexError
        | Some ch =>
            if is_barrier ch then scan_neighbors limit curr_pos prev_pos offs'
            else
              match is_turn curr_pos prev_pos y with
              | Err e => Err e
              | Ok turn =>
                  match scan_neighbors limit curr_pos prev_pos offs' with
                  | Ok neighbors => Ok (((r, c), turn) :: neighbors)
                  | Err e => Err e
                  end
              end
        end
  end.

Definition find_neighbors (curr_pos : pos) (prev_pos : option (Z * pos))
  : checked (list (pos * bool)) :=
  scan_neighbors (Z.of_nat (length grid_) - 1) curr_pos prev_pos offsets.

(** The [while] loop of [make_path]. *)
Fixpoint walk (fuel : nat) (rt : gmap pos (option (Z * pos)))
    (w : walk_state) : outcome walk_state :=
  match rt !! w_curr_pos w with
  | None => Raises KeyError
  | Some None => Returns w
  | Some (Some (_, curr_pos)) =>
      match fuel with
      | O => OutOfFuel
      | S n =>
          let x := w_x w in
          let prev_pos := w_prev_pos w in
          let changed := negb (coord curr_pos x =? coord prev_pos x) in
          let x' := if changed then (if x =? 0 then 1 else 0) else x in
          let turn_coords' :=
            if changed && negb (w_prev_is_end w)
            then w_turn_coords w ++ [prev_pos] else w_turn_coords w in
          walk n rt (WalkState curr_pos curr_pos false x' turn_coords'
                               (w_path_length w + 1))
      end
  end.

(** [route.get(p)]: the stored value, [None] for a key that is absent. *)
Definition route_get (rt : gmap pos (option (Z * pos))) (p : pos)
  : option (Z * pos) :=
  match rt !! p with
  | Some v => v
  | None => None
  end.

(** [make_path(self.end_pos, route)], the one call there is: [curr_pos]
    is the object [self.end_pos]. *)
Definition make_path_for (fuel : nat) (rt : gmap pos (option (Z * pos)))
  : outcome result :=
  match route_get rt end_pos with
  | None => Returns NoPathFound
  | Some _ =>
      match walk fuel rt (WalkState end_pos end_pos true 0 [] 1) with
      | Returns w =>
          Returns (Path (Z.of_nat (length (reverse (w_turn_coords w))))
                        (w_path_length w))
      | Raises e => Raises e
      | OutOfFuel => OutOfFuel
      end
  end.

(** Enough iterations for any walk that does not repeat a key. *)
Definition make_path (rt : gmap pos (option (Z * pos))) : outcome result :=
  make_path_for (size rt) rt.

(** The value the [for] body leaves in [turn_count[pos]]. *)
Definition new_count (tc : gmap pos Z) (pos_ : pos) (turns_so_far : Z)
    (did_turn : bool) : Z :=
  match tc !! pos_ with
  | Some v =>
      if v =? 0 then turns_so_far + Z.b2z did_turn
      else Z.min v (turns_so_far + Z.b2z did_turn)
  | None => turns_so_far + Z.b2z did_turn
  end.

(** Body of the [for] loop for one [(pos, did_turn)]. *)
Definition relax (st : state) (turns_so_far : Z) (curr_pos : pos)
    (nb : pos * bool) : state :=
  let '(pos_, did_turn) := nb in
  if bool_decide (pos_ ∈ visited st) then st
  else
    let count := new_count (turn_count st) pos_ turns_so_far did_turn in
    let turn_count' := <[pos_ := count]> (turn_count st) in
    let open_pos' := heappush (open_pos st) (count, pos_) in
    let old_route := route_get (route st) pos_ in
    let route1 :=
      match old_route with
      | Some (old_count, _) =>
          if count <? old_count then <[pos_ := Some (count, curr_pos)]> (route st)
          else route st
      | None => route st
      end in
    let route2 :=
      match old_route with
      | None => <[pos_ := Some (count, curr_pos)]> route1
      | Some _ => route1
      end in
    State (visited st) route2 turn_count' open_pos'.

(** One step of [search]: at the head of the [while] loop, the test of
    [open_pos] (and [make_path] once it is empty), the [heappop] and what
    follows it up to the [for] loop; inside the [for] loop, its body for the
    next [(pos, did_turn)]. *)
Definition step (c : config) : transition config result :=
  match c with
  | AtWhile st =>
      match open_pos st with
      | [] => finish id (make_path (route st))
      | (turns_so_far, curr_pos) :: rest =>
          if bool_decide (curr_pos ∈ visited st) then
            Next (AtWhile (State (visited st) (route st) (turn_count st) rest))
          else
            match route st !! curr_pos with
            | None => Fail KeyError
            | Some prev =>
                match find_neighbors curr_pos prev with
                | Err e => Fail e
                | Ok neighbors_list =>
                    Next (InFor (State ({[curr_pos]} ∪ visited st) (route st)
                                       (turn_count st) rest)
                                turns_so_far curr_pos neighbors_list)
                end
            end
      end
  | InFor st turns_so_far curr_pos [] => Next (AtWhile st)
  | InFor st turns_so_far curr_pos (nb :: todo) =>
      Next (InFor (relax st turns_so_far curr_pos nb) turns_so_far curr_pos todo)
  end.

Definition init : config :=
  AtWhile (State ∅ {[start_pos := None]} {[start_pos := 0]} [(0, start_pos)]).

Definition search_for (fuel : nat) : outcome result := run step fuel init.

Definition search : outcome result := search_for (search_fuel grid_).
(** *** Invariant of the loop *)

Definition cfg_state (c : config) : state :=
  match c with AtWhile st | InFor st _ _ _ => st end.

Definition cfg_todo (c : config) : list (pos * bool) :=
  match c with AtWhile _ => [] | InFor _ _ _ todo => todo end.

Definition measure (c : config) : nat :=
  (10 * size (universe grid_ start_pos ∖ visited (cfg_state c))
   + length (open_pos (cfg_state c)) + 2 * length (cfg_todo c)
   + match c with AtWhile _ => 0 | InFor _ _ _ _ => 1 end)%nat.

(** The predecessor stored in a value of [route]. *)
Definition pred_of (v : option (Z * pos)) : option pos := snd <$> v.

Record wf_state (st : state) : Prop := {
  wf_start : route st !! start_pos = Some None;
  wf_heap : ∀ l p, (l, p) ∈ open_pos st → is_Some (route st !! p);
  wf_pred : ∀ p v q, route st !! p = Some (Some (v, q)) →
      q ∈ visited st ∧ p ≠ start_pos ∧ edge grid_ q p;
  wf_root : ∀ p, route st !! p = Some None → p = start_pos;
  wf_chain : ∀ p, p ∈ visited st →
      ∃ l, chain pred_of (route st) p l ∧ NoDup l ∧ ∀ x, x ∈ l → x ∈ visited st;
  wf_conn : ∀ p, is_Some (route st !! p) → connected grid_ start_pos p
}.

(** [(pos, did_turn)] is what [find_neighbors] lists for some offset. *)
Definition listed (curr_pos : pos) (prev : option (Z * pos)) (nb : pos * bool)
  : Prop :=
  ∃ y x, (y, x) ∈ offsets ∧ nb.1 = (curr_pos.1 + y, curr_pos.2 + x) ∧
         is_turn curr_pos prev y = Ok nb.2.

Definition wf_config (c : config) : Prop :=
  match c with
  | AtWhile st =>
      wf_state st ∧
      (start_pos ∈ visited st ∨ (visited st = ∅ ∧ open_pos st = [(0, start_pos)]))
  | InFor st _ curr_pos todo =>
      wf_state st ∧ start_pos ∈ visited st ∧ curr_pos ∈ visited st ∧
      (∀ nb, nb ∈ todo → edge grid_ curr_pos nb.1) ∧ (length todo ≤ 4)%nat
  end.

(** Two cells on the row of the start, or on its column. *)
Definition aligned (p q : pos) : Prop :=
  (p.1 = start_pos.1 ∧ q.1 = start_pos.1) ∨ (p.2 = start_pos.2 ∧ q.2 = start_pos.2).

(** How [turn_count], [route] and the heap agree. *)
Record cost_state (st : state) : Prop := {
  cs_sorted : StronglySorted prio_le (open_pos st);
  cs_heap_nonneg : ∀ c p, (c, p) ∈ open_pos st → 0 ≤ c;
  cs_count_nonneg : ∀ p c, turn_count st !! p = Some c → 0 ≤ c;
  cs_start : turn_count st !! start_pos = Some 0;
  cs_heap_zero : ∀ p, (0, p) ∈ open_pos st → turn_count st !! p = Some 0;
  cs_zero_heap : ∀ p, turn_count st !! p = Some 0 → p ∉ visited st →
      (0, p) ∈ open_pos st;
  cs_route_count : ∀ p c q, route st !! p = Some (Some (c, q)) →
      turn_count st !! p = Some c;
  cs_count_route : ∀ p c, turn_count st !! p = Some c → p ≠ start_pos →
      ∃ q, route st !! p = Some (Some (c, q));
  cs_zero_aligned : ∀ p q, route st !! p = Some (Some (0, q)) → aligned p q
}.

Definition cost_config (c : config) : Prop :=
  match c with
  | AtWhile st => cost_state st
  | InFor st turns_so_far curr_pos todo =>
      cost_state st ∧ 0 ≤ turns_so_far ∧
      (∀ p, (0, p) ∈ open_pos st → turns_so_far = 0) ∧
      (turns_so_far = 0 → turn_count st !! curr_pos = Some 0) ∧
      ∃ prev, route st !! curr_pos = Some prev ∧
              ∀ nb, nb ∈ todo → listed curr_pos prev nb
  end.

Definition invariant (c : config) : Prop := wf_config c ∧ cost_config c.
(** What the predecessor links of [route] satisfy in configuration [c]:
    an entry written by the next step belongs to a cell not yet finalised
    and points to a finalised, adjacent, open cell; the start is the only
    key without predecessor; and the loop of [make_path], started at any
    key, returns (no missing key, no cycle) with [curr_pos] at the start. *)
Definition links_back (c : config) : Prop :=
  (∀ c' p o,
     step c = Next c' →
     route (cfg_state c') !! p = Some o →
     route (cfg_state c) !! p ≠ Some o →
     (p ∉ visited (cfg_state c)) ∧
     (∃ v q, o = Some (v, q) ∧ q ∈ visited (cfg_state c) ∧ adjacent q p ∧
             is_open grid_ q)) ∧
  (∀ p, route (cfg_state c) !! p = Some None ↔ p = start_pos) ∧
  (∀ w, is_Some (route (cfg_state c) !! w_curr_pos w) →
     ∃ w',
       walk (size (route (cfg_state c))) (route (cfg_state c)) w = Returns w' ∧
       w_curr_pos w' = start_pos).
(** The frontier covers the border of [visited]: an open cell next to a
    finalised cell is finalised, waits in the heap, or is a neighbour the
    [for] loop has yet to handle. *)
Definition closed (c : config) : Prop :=
  ∀ p q, p ∈ visited (cfg_state c) → edge grid_ p q →
    q ∈ visited (cfg_state c) ∨
    (∃ l, (l, q) ∈ open_pos (cfg_state c)) ∨
    match c with
    | AtWhile _ => False
    | InFor _ _ curr_pos todo => p = curr_pos ∧ q ∈ todo.*1
    end.
End WithSelf.
End MinTurns.


(** ** Grids used as examples *)

Definition detour_grid : grid := [".x."; "..."; ".x."]%string.
Definition pocket_grid : grid := ["x.x"; "..."; "x.."]%string.
Definition bend_grid : grid := ["..x"; "..."; "xxx"]%string.
Definition open_grid3 : grid := ["..."; "..."; "..."]%string.
Definition open_grid2 : grid := [".."; ".."]%string.
Definition walled_grid : grid := [".x"; "x."]%string.
Definition single_grid : grid := ["."]%string.

(** ** The maze generator and the driver of [main.py] *)

Module Main.

(** [items[i]] on a Python list: a negative index counts from the end, an
    index outside the list is an IndexError ([None]). *)
Definition py_index {A} (items : list A) (i : Z) : option A :=
  if 0 <=? i then items !! Z.to_nat i
  else if - Z.of_nat (length items) <=? i
       then items !! Z.to_nat (Z.of_nat (length items) + i)
       else None.

Definition items : list ascii := ["."; "."; "."; "x"]%char.

Section WithRandom.
(** The random source: [randint k] is what the call [randint(0, 3)]
    returns when [k] calls have been made before it.  The functions thread
    the number of calls made. *)
Context (randint : nat → Z).

(** The list comprehension of [make_maze_line], for the [n] iterations
    that remain. *)
Fixpoint maze_line_chars (n : nat) (calls : nat) : checked (list ascii) :=
  match n with
  | O => Ok []
  | S n' =>
      match py_index items (randint calls) with
      | None => Err IndexError
      | Some ch =>
          match maze_line_chars n' (S calls) with
          | Ok chars => Ok (ch :: chars)
          | Err e => Err e
          end
      end
  end.

(** [make_maze_line(size)]: the line, and the calls made once it is built.
    [range(size)] is empty for a negative [size]. *)
Definition make_maze_line (size : Z) (calls : nat) : checked (string * nat) :=
  match maze_line_chars (Z.to_nat size) calls with
  | Ok chars => Ok (string_of_list_ascii chars, (calls + Z.to_nat size)%nat)
  | Err e => Err e
  end.

(** The list comprehension of [make_maze], for the [n] lines that remain. *)
Fixpoint maze_lines (size : Z) (n : nat) (calls : nat) : checked (list string) :=
  match n with
  | O => Ok []
  | S n' =>
      match make_maze_line size calls with
      | Err e => Err e
      | Ok (line, calls') =>
          match maze_lines size n' calls' with
          | Ok lines => Ok (line :: lines)
          | Err e => Err e
          end
      end
  end.

Definition make_maze (size : Z) (calls : nat) : checked (list string) :=
  maze_lines size (Z.to_nat size) calls.

(** The module-level [maze = make_maze(60)] and [start, stop]; [main]
    computes [route_1] and [route_2] (and prints them). *)
Definition start : pos := (3, 2).
Definition stop : pos := (42, 54).

Definition main : checked (outcome MinTurns.result * outcome ShortestRoute.result) :=
  match make_maze 60 0 with
  | Err e => Err e
  | Ok maze =>
      Ok (MinTurns.search maze start stop, ShortestRoute.search maze start stop)
  end.
End WithRandom.

(** A random source for the examples: 0, 1, 2, 3, 0, 1, ... *)
Definition cycle (k : nat) : Z := Z.of_nat (k mod 4).
End Main.
(** * Properties *)

(** ** The loop machine *)

Section MachineFacts.
Context {C R : Type} (step : C → transition C R).

Lemma run_more n m c r :
  run step n c = Returns r → (n ≤ m)%nat → run step m c = Returns r.
Proof.
  revert m c. induction n as [|n IH]; intros m c Hr Hle; [discriminate|].
  destruct m as [|m]; [lia|]. simpl in *.
  destruct (step c); try done. apply IH; [done|lia].
Qed.

Lemma reachable_trans c0 c1 c2 :
  reachable step c0 c1 → reachable step c1 c2 → reachable step c0 c2.
Proof. intros H1. induction 1; [done|]. by eapply reachable_step. Qed.

Lemma steps_reachable n c c' : steps step n c = Some c' → reachable step c c'.
Proof.
  revert c. induction n as [|n IH]; intros c; simpl.
  - intros [= <-]. constructor.
  - destruct (step c) as [c1| | |] eqn:Hs; try discriminate.
    intros Hn. eapply reachable_trans; [|by apply IH].
    eapply reachable_step; [constructor|done].
Qed.

Section Invariant.
Context (Inv : C → Prop) (mu : C → nat).
Hypothesis Inv_step : ∀ c c', Inv c → step c = Next c' → Inv c'.

Lemma reachable_inv c0 c : Inv c0 → reachable step c0 c → Inv c.
Proof. intros H0. induction 1; eauto. Qed.

Lemma run_returns_inv (P : R → Prop) :
  (∀ c r, Inv c → step c = Halt r → P r) →
  ∀ n c r, Inv c → run step n c = Returns r → P r.
Proof.
  intros HP n. induction n as [|n IH]; intros c r Hc Hr; [discriminate|].
  simpl in Hr. destruct (step c) eqn:Hs; try discriminate.
  - eapply IH; [|done]. eauto.
  - injection Hr as Hr. subst. eauto.
Qed.

Hypothesis mu_step : ∀ c c', Inv c → step c = Next c' → (mu c' < mu c)%nat.
Hypothesis safe : ∀ c, Inv c → step c ≠ Hang ∧ ∀ e, step c ≠ Fail e.

Lemma run_total n c : Inv c → (mu c < n)%nat → ∃ r, run step n c = Returns r.
Proof.
  revert c. induction n as [|n IH]; intros c Hc Hlt; [lia|].
  simpl. destruct (step c) eqn:Hs.
  - apply IH; [eauto|]. specialize (mu_step _ _ Hc Hs). lia.
  - eauto.
  - destruct (safe _ Hc) as [_ Hf]. by destruct (Hf e).
  - by destruct (safe _ Hc) as [Hh _].
Qed.
End Invariant.
End MachineFacts.

(** ** The heap *)

Lemma elem_of_heappush (h : list entry) e x :
  x ∈ heappush h e ↔ x = e ∨ x ∈ h.
Proof.
  induction h as [|e' h IH]; simpl.
  - rewrite list_elem_of_singleton, elem_of_nil. tauto.
  - destruct (entry_leb e e'); rewrite !elem_of_cons; [done|].
    rewrite IH. tauto.
Qed.

Lemma length_heappush (h : list entry) e :
  length (heappush h e) = S (length h).
Proof.
  induction h as [|e' h IH]; simpl; [done|].
  destruct (entry_leb e e'); simpl; congruence.
Qed.

Lemma entry_leb_prio a b : entry_leb a b = true → prio_le a b.
Proof.
  destruct a as [pa [ra ca]], b as [pb [rb cb]]. unfold prio_le. simpl. lia.
Qed.

Lemma entry_leb_prio_false a b : entry_leb a b = false → prio_le b a.
Proof.
  destruct a as [pa [ra ca]], b as [pb [rb cb]]. unfold prio_le. simpl. lia.
Qed.

Lemma heappush_sorted h e :
  StronglySorted prio_le h → StronglySorted prio_le (heappush h e).
Proof.
  induction 1 as [|e' h Hs IH Hall]; simpl.
  - repeat constructor.
  - destruct (entry_leb e e') eqn:Hle.
    + constructor; [by constructor|].
      apply entry_leb_prio in Hle. constructor; [done|].
      eapply Forall_impl; [exact Hall|]. unfold prio_le in *. simpl. lia.
    + constructor; [done|].
      apply entry_leb_prio_false in Hle.
      apply Forall_forall. intros x Hx. apply elem_of_heappush in Hx as [->|Hx]; [done|].
      rewrite Forall_forall in Hall. auto.
Qed.

(** ** The grid *)

Lemma elem_of_cells g p : p ∈ cells g ↔ in_grid g p.
Proof.
  destruct p as [r c]. unfold cells, in_grid.
  rewrite list_elem_of_In.
  etrans; [apply in_prod_iff|].
  rewrite <- !list_elem_of_In, !elem_of_seqZ. simpl. lia.
Qed.

Lemma elem_of_universe g s p : p ∈ universe g s ↔ p = s ∨ in_grid g p.
Proof.
  unfold universe. rewrite elem_of_union, elem_of_singleton, elem_of_list_to_set.
  by rewrite elem_of_cells.
Qed.

Lemma size_list_to_set_le (l : list pos) :
  (size (list_to_set (C := gset pos) l) ≤ length l)%nat.
Proof.
  induction l as [|x l IH]; simpl; [done|].
  rewrite size_union_alt, size_singleton.
  assert (size (list_to_set (C := gset pos) l ∖ {[x]}) ≤ size (list_to_set (C := gset pos) l))%nat
    by (apply subseteq_size; set_solver).
  lia.
Qed.

Lemma size_universe g s : (size (universe g s) ≤ length g * length g + 1)%nat.
Proof.
  unfold universe. rewrite size_union_alt, size_singleton.
  assert (size (list_to_set (C := gset pos) (cells g) ∖ {[s]})
          ≤ size (list_to_set (C := gset pos) (cells g)))%nat
    by (apply subseteq_size; set_solver).
  pose proof (size_list_to_set_le (cells g)) as Hle.
  unfold cells in Hle at 2. rewrite length_prod, length_seqZ, Nat2Z.id in Hle. lia.
Qed.

Lemma offsets_unit y x : (y, x) ∈ offsets → Z.abs y + Z.abs x = 1.
Proof.
  unfold offsets. rewrite !elem_of_cons, elem_of_nil.
  intros [?|[?|[?|[?|[]]]]]; simplify_eq; done.
Qed.

Lemma string_get_lt n (s : string) :
  (n < String.length s)%nat → ∃ ch, String.get n s = Some ch.
Proof.
  revert n. induction s as [|a s IH]; intros n Hn; simpl in *; [lia|].
  destruct n; [eauto|]. apply IH. lia.
Qed.

Lemma cell_square g p :
  square g → in_grid g p → ∃ ch, cell g p.1 p.2 = Some ch.
Proof.
  intros Hsq [Hr Hc]. unfold cell.
  destruct (lookup_lt_is_Some_2 g (Z.to_nat p.1)) as [row Hrow]; [lia|].
  rewrite Hrow. apply string_get_lt.
  unfold square in Hsq. rewrite Forall_forall in Hsq.
  rewrite (Hsq row); [lia|]. eapply list_elem_of_lookup_2; eauto.
Qed.

Lemma outside_false g r c :
  outside (Z.of_nat (length g) - 1) r c = false ↔ in_grid g (r, c).
Proof. unfold outside, in_grid. simpl. lia. Qed.

(** ** Predecessor chains *)

Section ChainFacts.
Context {V : Type} (pred : V → option pos).

Lemma chain_insert (rt : gmap pos V) p l k v :
  chain pred rt p l → k ∉ l → chain pred (<[k := v]> rt) p l.
Proof.
  induction 1 as [p w Hp Hw|p w q l Hp Hw Hc IH]; intros Hk.
  - apply chain_end with w; [|done]. rewrite lookup_insert_ne; [done|set_solver].
  - apply chain_link with w q; [|done|].
    + rewrite lookup_insert_ne; [done|set_solver].
    + apply IH. set_solver.
Qed.

Lemma chain_keys (rt : gmap pos V) p l :
  chain pred rt p l → ∀ x, x ∈ l → is_Some (rt !! x).
Proof.
  induction 1 as [p w Hp Hw|p w q l Hp Hw Hc IH]; intros x Hx.
  - apply list_elem_of_singleton in Hx as ->. eauto.
  - apply elem_of_cons in Hx as [->|Hx]; eauto.
Qed.

Lemma chain_length (rt : gmap pos V) p l :
  chain pred rt p l → NoDup l → (length l ≤ size rt)%nat.
Proof.
  intros Hc Hnd.
  rewrite <- (size_dom (D := gset pos)), <- (size_list_to_set (C := gset pos) l Hnd).
  apply subseteq_size. intros x Hx. apply elem_of_list_to_set in Hx.
  apply elem_of_dom. eapply chain_keys; eauto.
Qed.

Lemma chain_last (rt : gmap pos V) p l :
  chain pred rt p l →
  ∃ t v, last l = Some t ∧ rt !! t = Some v ∧ pred v = None.
Proof.
  induction 1 as [p w Hp Hw|p w q l Hp Hw Hc (t & v & Hl & Ht & Hv)].
  - exists p, w. done.
  - exists t, v. split; [|done]. destruct l; [inversion Hc|done].
Qed.

Lemma chain_head (rt : gmap pos V) p l :
  chain pred rt p l → head l = Some p.
Proof. by destruct 1. Qed.
End ChainFacts.

(** ** The boolean tests against the graph of open cells *)

Lemma is_openb_true g q : is_openb g q = true ↔ is_open g q.
Proof.
  unfold is_openb, is_open, in_gridb. destruct q as [r c]. simpl.
  rewrite andb_true_iff, negb_true_iff, outside_false. split.
  - intros [Hin Hcell]. split; [done|].
    destruct (cell g r c) as [ch|]; [|done]. exists ch.
    split; [done|]. by apply negb_true_iff.
  - intros [Hin (ch & -> & Hbar)]. split; [done|]. by apply negb_true_iff.
Qed.

Lemma adjacentb_true p q : adjacentb p q = true ↔ adjacent p q.
Proof. unfold adjacentb, adjacent. apply Z.eqb_eq. Qed.

Lemma adjacent_sym p q : adjacent p q → adjacent q p.
Proof. unfold adjacent. lia. Qed.

Lemma adjacent_offset p q :
  adjacent p q → ∃ y x, (y, x) ∈ offsets ∧ q = (p.1 + y, p.2 + x).
Proof.
  destruct p as [a b], q as [c d]. unfold adjacent, offsets. simpl. intros Hadj.
  exists (c - a), (d - b). split; [|f_equal; lia].
  rewrite !elem_of_cons.
  assert ((c - a = 0 ∧ d - b = 1) ∨ (c - a = -1 ∧ d - b = 0) ∨
          (c - a = 0 ∧ d - b = -1) ∨ (c - a = 1 ∧ d - b = 0))
    as [[-> ->]|[[-> ->]|[[-> ->]|[-> ->]]]] by lia; auto.
Qed.

Lemma linked_snoc g p l q :
  linked g p (l ++ [q])
  = linked g p l && adjacentb (default p (last l)) q && is_openb g q.
Proof.
  revert p. induction l as [|a l IH]; intros p; simpl.
  - by rewrite andb_true_r.
  - rewrite IH, last_cons.
    replace (default p (match last l with Some y => Some y | None => Some a end))
      with (default a (last l)) by (by destruct (last l)).
    by rewrite !andb_assoc.
Qed.
(** ** Loops that may raise *)

Section MachineEnds.
Context {C R : Type} (step : C → transition C R).
Context (Inv : C → Prop) (mu : C → nat).
Hypothesis Inv_step : ∀ c c', Inv c → step c = Next c' → Inv c'.

Lemma run_raises_inv (P : exn → Prop) :
  (∀ c x, Inv c → step c = Fail x → P x) →
  ∀ n c x, Inv c → run step n c = Raises x → P x.
Proof.
  intros HP n. induction n as [|n IH]; intros c x Hc Hr; [discriminate|].
  simpl in Hr. destruct (step c) eqn:Hs; try discriminate.
  - eapply IH; [|done]. eauto.
  - injection Hr as Hr. subst. eauto.
Qed.

Hypothesis mu_step : ∀ c c', Inv c → step c = Next c' → (mu c' < mu c)%nat.
Hypothesis no_hang : ∀ c, Inv c → step c ≠ Hang.

Lemma run_ends n c : Inv c → (mu c < n)%nat → run step n c ≠ OutOfFuel.
Proof.
  revert c. induction n as [|n IH]; intros c Hc Hlt; [lia|].
  simpl. destruct (step c) eqn:Hs; try done.
  - apply IH; [eauto|]. specialize (mu_step _ _ Hc Hs). lia.
  - by destruct (no_hang _ Hc).
Qed.
End MachineEnds.
(** ** From predecessor chains to paths of the grid *)

Section ChainPath.
Context {V : Type} (pred : V → option pos) (g : grid) (s : pos) (rt : gmap pos V).
Hypothesis Hedge : ∀ p v q, rt !! p = Some v → pred v = Some q → edge g q p.
Hypothesis Hroot : ∀ p v, rt !! p = Some v → pred v = None → p = s.

Lemma chain_path p l :
  chain pred rt p l →
  ∃ rest, reverse l = s :: rest ∧ linked g s rest = true ∧
          last (s :: rest) = Some p.
Proof.
  induction 1 as [p v Hp Hv|p v q l Hp Hv Hc (rest & Hrev & Hlink & Hlast)].
  - rewrite (Hroot p v Hp Hv). by exists [].
  - exists (rest ++ [p]). rewrite reverse_cons, Hrev. split; [done|].
    destruct (Hedge p v q Hp Hv) as [Hadj Hopen]. split.
    + rewrite linked_snoc, Hlink. rewrite last_cons in Hlast.
      replace (default s (last rest)) with q by (destruct (last rest); by simplify_eq).
      apply adjacentb_true in Hadj. apply is_openb_true in Hopen.
      by rewrite Hadj, Hopen.
    + by rewrite app_comm_cons, last_snoc.
Qed.

Lemma chain_valid_path p l :
  is_open g s → chain pred rt p l → valid_path g s p (reverse l) = true.
Proof.
  intros Hs Hc. destruct (chain_path p l Hc) as (rest & -> & Hlink & Hlast).
  unfold valid_path. rewrite Hlink, Hlast.
  apply is_openb_true in Hs. rewrite Hs.
  by rewrite !bool_decide_eq_true_2.
Qed.
End ChainPath.

(** ** Turns of a path *)

Lemma step_axis_sym p q : step_axis p q = step_axis q p.
Proof. unfold step_axis. by rewrite Z.eqb_sym. Qed.

Lemma axis_eqb_sym a b : axis_eqb a b = axis_eqb b a.
Proof. by destruct a, b. Qed.

Lemma path_turns_cons3 a b c l :
  path_turns (a :: b :: c :: l)
  = (if axis_eqb (step_axis a b) (step_axis b c) then 0 else 1)
    + path_turns (b :: c :: l).
Proof. done. Qed.

Lemma path_turns_snoc l p q r :
  path_turns (l ++ [p; q; r])
  = path_turns (l ++ [p; q])
    + (if axis_eqb (step_axis p q) (step_axis q r) then 0 else 1).
Proof.
  induction l as [|a l IH]; [simpl; lia|].
  destruct l as [|b l]; [simpl; lia|].
  destruct l as [|c l]; [simpl; lia|].
  rewrite <- !app_comm_cons in *. rewrite !path_turns_cons3. lia.
Qed.

Lemma path_turns_reverse l : path_turns (reverse l) = path_turns l.
Proof.
  induction l as [|a l IH]; [done|].
  destruct l as [|b l]; [done|]. destruct l as [|c l]; [done|].
  rewrite path_turns_cons3, <- IH, !reverse_cons, <- !app_assoc. simpl.
  rewrite path_turns_snoc.
  rewrite (step_axis_sym c b), (step_axis_sym b a), axis_eqb_sym. lia.
Qed.
(** ** ShortestRoute *)

Module ShortestRouteProofs.
Import ShortestRoute.

Section WithSelf.
Context (g : grid) (s e : pos).

Lemma sr_scan_neighbors_spec curr offs l :
  (∀ y x, (y, x) ∈ offs → Z.abs y + Z.abs x = 1) →
  scan_neighbors g (Z.of_nat (length g) - 1) curr offs = Ok l →
  (length l ≤ length offs)%nat ∧ ∀ q, q ∈ l → edge g curr q.
Proof.
  revert l. induction offs as [|[y x] offs IH]; intros l Hoffs Hscan; simpl in Hscan.
  - injection Hscan as Hl. subst. split; [done|]. by intros q ?%elem_of_nil.
  - assert (Hoffs' : ∀ y x, (y, x) ∈ offs → Z.abs y + Z.abs x = 1)
      by (intros; apply Hoffs; by right).
    destruct (outside _ _ _) eqn:Hout.
    { destruct (IH l Hoffs' Hscan) as [Hlen Hedge]. split; [simpl; lia|done]. }
    destruct (cell g _ _) as [ch|] eqn:Hcell; [|discriminate].
    destruct (is_barrier ch) eqn:Hbar.
    { destruct (IH l Hoffs' Hscan) as [Hlen Hedge]. split; [simpl; lia|done]. }
    destruct (scan_neighbors _ _ _ offs) as [l'|] eqn:Hrest; [|discriminate].
    injection Hscan as Hl. subst l.
    destruct (IH l' Hoffs' eq_refl) as [Hlen Hedge]. split; [simpl; lia|].
    intros q [->|Hq]%elem_of_cons; [|by auto].
    specialize (Hoffs y x (list_elem_of_here _ _)).
    split; [unfold adjacent; simpl; lia|].
    split; [by apply outside_false|]. simpl. eauto.
Qed.

Lemma sr_find_neighbors_spec curr l :
  find_neighbors g curr = Ok l →
  (length l ≤ 4)%nat ∧ ∀ q, q ∈ l → edge g curr q.
Proof. apply sr_scan_neighbors_spec, offsets_unit. Qed.

Lemma sr_scan_neighbors_ok curr offs :
  square g → ∃ l, scan_neighbors g (Z.of_nat (length g) - 1) curr offs = Ok l.
Proof.
  intros Hsq. induction offs as [|[y x] offs [l IH]]; simpl; [eauto|].
  destruct (outside _ _ _) eqn:Hout; [eauto|].
  apply outside_false in Hout.
  destruct (cell_square g _ Hsq Hout) as [ch Hch]. simpl in Hch. rewrite Hch.
  destruct (is_barrier ch); [eauto|]. rewrite IH. eauto.
Qed.

Lemma sr_find_neighbors_ok curr : square g → ∃ l, find_neighbors g curr = Ok l.
Proof. apply sr_scan_neighbors_ok. Qed.

(** The walk of [make_path] along a chain. *)
Lemma sr_walk_chain rt p l fuel acc :
  chain snd rt p l → (length l ≤ fuel)%nat →
  walk fuel rt (Some p) acc = Returns (acc ++ l).
Proof.
  intros Hc. revert fuel acc.
  induction Hc as [p [v o] Hp Ho|p [v o] q l Hp Ho Hc IH]; intros fuel acc Hlen;
    simpl in *; subst o; (destruct fuel as [|fuel]; [lia|]); simpl; rewrite Hp.
  - by destruct fuel.
  - rewrite IH by lia. by rewrite <- app_assoc.
Qed.

Lemma make_path_from_chain rt p l :
  chain snd rt p l → NoDup l →
  make_path_from (size rt) rt p = Returns (Z.of_nat (length l)).
Proof.
  intros Hc Hnd. unfold make_path_from.
  rewrite (sr_walk_chain rt p l) by eauto using chain_length.
  by rewrite length_reverse.
Qed.

(** Every key of [route] starts a chain without repetition; past its
    first cell the chain stays among finalised cells. *)
Lemma sr_route_chain st p :
  wf_state g s e st → is_Some (route st !! p) →
  ∃ l, chain snd (route st) p l ∧ NoDup l ∧ ∀ x, x ∈ l → x = p ∨ x ∈ visited st.
Proof.
  intros Hwf [[v o] Hp].
  destruct (decide (p ∈ visited st)) as [Hv|Hv].
  { destruct (wf_chain _ _ _ _ Hwf p Hv) as (l & ? & ? & ?). eauto 6. }
  destruct o as [q|].
  - destruct (wf_pred _ _ _ _ Hwf _ _ _ Hp) as (Hq & _ & _).
    destruct (wf_chain _ _ _ _ Hwf q Hq) as (l & Hc & Hnd & Hl).
    exists (p :: l). split; [by eapply chain_link|]. split.
    + constructor; [|done]. intros Hin. by apply Hv, Hl.
    + intros x [->|Hx]%elem_of_cons; auto.
  - exists [p]. split; [by eapply chain_end|]. split; [apply NoDup_singleton|].
    intros x ->%list_elem_of_singleton. by left.
Qed.

(** *** The invariant holds throughout *)

Lemma sr_relax_visited st len curr nb :
  nb ∈ visited st → relax st len curr nb = (st, len).
Proof. intros Hv. unfold relax. by rewrite bool_decide_eq_true_2. Qed.

Lemma sr_relax_unvisited st len curr nb :
  nb ∉ visited st →
  ∃ rt', relax st len curr nb
         = (State (visited st) rt' (heappush (open_pos st) (len + 1, nb)), len + 1) ∧
    ((rt' = route st ∧ ∃ v o, route st !! nb = Some (v, o) ∧ v ≤ len + 1) ∨
     (rt' = <[nb := (len + 1, Some curr)]> (route st) ∧
      (route st !! nb = None ∨ ∃ v o, route st !! nb = Some (v, o) ∧ len + 1 < v))).
Proof.
  intros Hv. unfold relax. rewrite bool_decide_eq_false_2 by done.
  destruct (route st !! nb) as [[v o]|] eqn:Hnb.
  - destruct (len + 1 <? v) eqn:Hlt.
    + eexists. split; [done|]. right. split; [done|]. right. exists v, o. split; [done|lia].
    + eexists. split; [done|]. left. split; [done|]. exists v, o. split; [done|lia].
  - eexists. split; [done|]. right. split; [done|]. by left.
Qed.

Lemma sr_wf_state_pop V rt x rest :
  wf_state g s e (State V rt (x :: rest)) → wf_state g s e (State V rt rest).
Proof.
  intros [H1 H2 H3 H4 H5 H6 H7]. split; simpl in *; try done.
  intros l p Hp. apply (H2 l p). by right.
Qed.

Lemma sr_wf_state_visit V rt h curr :
  wf_state g s e (State V rt h) → is_Some (rt !! curr) → curr ≠ e → curr ∉ V →
  wf_state g s e (State ({[curr]} ∪ V) rt h).
Proof.
  intros Hwf Hcurr He Hv. pose proof Hwf as [H1 H2 H3 H4 H5 H6 H7].
  split; simpl in *; try done.
  - intros p v q Hp. destruct (H3 p v q Hp) as (? & ? & ?). split; [set_solver|done].
  - intros p [->%elem_of_singleton|Hp]%elem_of_union.
    + destruct (sr_route_chain (State V rt h) curr Hwf Hcurr) as (l & Hc & Hnd & Hl).
      exists l. split; [done|]. split; [done|].
      intros x Hx. destruct (Hl x Hx); set_solver.
    + destruct (H5 p Hp) as (l & ? & ? & ?). exists l. set_solver.
  - set_solver.
Qed.

Lemma sr_wf_state_push V rt h len nb :
  wf_state g s e (State V rt h) → is_Some (rt !! nb) →
  wf_state g s e (State V rt (heappush h (len, nb))).
Proof.
  intros [H1 H2 H3 H4 H5 H6 H7] Hnb. split; simpl in *; try done.
  intros l p [Hp|Hp]%elem_of_heappush; [by simplify_eq|eauto].
Qed.

Lemma sr_wf_state_write V rt h len curr nb :
  wf_state g s e (State V rt h) → s ∈ V → curr ∈ V → nb ∉ V → edge g curr nb →
  wf_state g s e (State V (<[nb := (len, Some curr)]> rt) (heappush h (len, nb))).
Proof.
  intros [H1 H2 H3 H4 H5 H6 H7] Hs Hcurr Hnb Hedge.
  assert (nb ≠ s) by (by intros ->).
  split; simpl in *; try done.
  - by rewrite lookup_insert_ne.
  - intros l p [Hp|Hp]%elem_of_heappush.
    + simplify_eq. rewrite lookup_insert_eq. eauto.
    + rewrite lookup_insert. case_decide; eauto.
  - intros p v q. rewrite lookup_insert. case_decide; [|by eauto].
    intros Hp. by simplify_eq.
  - intros p v. rewrite lookup_insert. case_decide; [done|by eauto].
  - intros p Hp. destruct (H5 p Hp) as (l & Hc & Hnd & Hl).
    exists l. split; [|done]. apply chain_insert; [done|]. intros Hin. by apply Hnb, Hl.
  - intros p. rewrite lookup_insert. case_decide; [|by eauto].
    subst p. intros _. apply connected_step with curr; [|done].
    apply H7. destruct (H5 curr Hcurr) as (l & Hc & _).
    eapply chain_keys; [done|]. apply head_Some_elem_of. by eapply chain_head.
Qed.

#[local] Ltac split_for :=
  simpl; split; [|split; [|split; [|split]]]; [|done|done|done|simpl in *; lia].

Lemma sr_wf_config_init : wf_config g s e (init s).
Proof.
  split; [|by right]. split; simpl.
  - by rewrite lookup_singleton_eq.
  - intros l p [= -> ->]%list_elem_of_singleton. rewrite lookup_singleton_eq. eauto.
  - intros p v q [_ [=]]%lookup_singleton_Some.
  - by intros p v [-> _]%lookup_singleton_Some.
  - by intros p ?%elem_of_empty.
  - apply not_elem_of_empty.
  - intros p [v [-> _]%lookup_singleton_Some]. constructor.
Qed.

Lemma sr_wf_config_step c c' :
  wf_config g s e c → step g e c = Next c' → wf_config g s e c'.
Proof.
  destruct c as [[V rt h]|[V rt h] len curr todo]; simpl.
  - intros [Hwf Hs]. destruct h as [|[len curr] rest]; [discriminate|].
    case_bool_decide as Hend; [by destruct (make_path _ _)|].
    assert (Hcurr : is_Some (rt !! curr))
      by (apply (wf_heap _ _ _ _ Hwf len); simpl; by left).
    case_bool_decide as Hv.
    + intros [= <-]. split; [by eapply sr_wf_state_pop|]. simpl in *.
      destruct Hs as [?|[-> _]]; [by left|]. by apply elem_of_empty in Hv.
    + destruct (find_neighbors g curr) as [nbs|] eqn:Hnbs; [|discriminate].
      intros [= <-]. apply sr_find_neighbors_spec in Hnbs as [Hlen Hedge].
      split; [|split; [|split; [set_solver|done]]].
      * apply sr_wf_state_visit; [by eapply sr_wf_state_pop|done..].
      * simpl in *. destruct Hs as [?|[_ ?]]; [set_solver|]. simplify_eq. set_solver.
  - intros (Hwf & Hs & Hcurr & Hedge & Hlen).
    destruct todo as [|nb todo]; [intros [= <-]; split; [done|by left]|].
    destruct (relax _ _ _ _) as [st' len'] eqn:Hrelax. intros [= <-].
    assert (Hedge' : ∀ q, q ∈ todo → edge g curr q) by (intros; apply Hedge; by right).
    simpl in Hlen.
    destruct (decide (nb ∈ V)) as [Hnb|Hnb].
    { rewrite sr_relax_visited in Hrelax by done. simplify_eq.
      split_for. done. }
    destruct (sr_relax_unvisited (State V rt h) len curr nb Hnb)
      as (rt' & Heq & [[-> (v & o & Hl & _)]|[-> _]]);
      rewrite Heq in Hrelax; simplify_eq; simpl in *.
    + split_for. apply sr_wf_state_push; eauto.
    + split_for. apply sr_wf_state_write; eauto. apply Hedge. by left.
Qed.

(** *** Termination *)

Lemma sr_route_key_universe st p :
  wf_state g s e st → is_Some (route st !! p) → p ∈ universe g s.
Proof.
  intros Hwf [[v [q|]] Hp]; apply elem_of_universe.
  - right. by destruct (wf_pred _ _ _ _ Hwf _ _ _ Hp) as (_ & _ & _ & [? _]).
  - left. by eapply wf_root.
Qed.

Lemma sr_measure_step c c' :
  wf_config g s e c → step g e c = Next c' → (measure g s c' < measure g s c)%nat.
Proof.
  destruct c as [[V rt h]|[V rt h] len curr todo]; unfold measure; simpl.
  - intros [Hwf Hs]. destruct h as [|[len curr] rest]; [discriminate|].
    case_bool_decide as Hend; [by destruct (make_path _ _)|].
    case_bool_decide as Hv; [intros [= <-]; simpl; lia|].
    destruct (find_neighbors g curr) as [nbs|] eqn:Hnbs; [|discriminate].
    intros [= <-]. apply sr_find_neighbors_spec in Hnbs as [Hlen _]. simpl.
    assert (Hu : curr ∈ universe g s).
    { eapply sr_route_key_universe; [done|]. apply (wf_heap _ _ _ _ Hwf len). by left. }
    assert (size (universe g s ∖ ({[curr]} ∪ V)) < size (universe g s ∖ V))%nat.
    { apply subset_size. set_solver. }
    lia.
  - intros _. destruct todo as [|nb todo]; [intros [= <-]; simpl; lia|].
    destruct (decide (nb ∈ V)) as [Hnb|Hnb].
    + rewrite sr_relax_visited by done. intros [= <-]. simpl. lia.
    + destruct (sr_relax_unvisited (State V rt h) len curr nb Hnb) as (rt' & -> & _).
      intros [= <-]. simpl. rewrite length_heappush. lia.
Qed.

Lemma sr_step_safe c :
  square g → wf_config g s e c →
  step g e c ≠ Hang ∧ ∀ x, step g e c ≠ Fail x.
Proof.
  intros Hsq. destruct c as [[V rt h]|[V rt h] len curr todo]; simpl.
  - intros [Hwf Hs]. destruct h as [|[len curr] rest]; [done|].
    case_bool_decide as Hend.
    + subst curr. unfold make_path.
      destruct (sr_route_chain _ e Hwf) as (l & Hc & Hnd & _).
      { apply (wf_heap _ _ _ _ Hwf len). by left. }
      simpl in Hc. by rewrite (make_path_from_chain _ _ _ Hc Hnd).
    + case_bool_decide; [done|].
      by destruct (sr_find_neighbors_ok curr Hsq) as [l ->].
  - intros _. destruct todo; [done|]. by destruct (relax _ _ _ _).
Qed.

Lemma sr_measure_init : (measure g s (init s) < search_fuel g)%nat.
Proof.
  unfold measure, search_fuel. simpl.
  assert (size (universe g s ∖ ∅) ≤ size (universe g s))%nat
    by (apply subseteq_size; set_solver).
  pose proof (size_universe g s). lia.
Qed.

(** A search on a square grid returns, whatever the start and the end,
    within [search_fuel] steps. *)
Lemma sr_search_returns :
  square g → ∃ r, search g s e = Returns r.
Proof.
  intros Hsq. unfold search, search_for.
  apply (run_total (step g e) (wf_config g s e) (measure g s)).
  - apply sr_wf_config_step.
  - apply sr_measure_step.
  - intros c. by apply sr_step_safe.
  - apply sr_wf_config_init.
  - apply sr_measure_init.
Qed.

Lemma sr_search_for_enough fuel r :
  search g s e = Returns r → (search_fuel g ≤ fuel)%nat →
  search_for g s e fuel = Returns r.
Proof. apply run_more. Qed.

Lemma sr_reachable_wf c : reachable (step g e) (init s) c → wf_config g s e c.
Proof. apply reachable_inv; [apply sr_wf_config_step|apply sr_wf_config_init]. Qed.

(** *** What the search returns *)

Lemma sr_search_disconnected :
  square g → ¬ connected g s e → search g s e = Returns NoPathFound.
Proof.
  intros Hsq Hnc. destruct (sr_search_returns Hsq) as [r Hr]. rewrite Hr. f_equal.
  revert Hr. unfold search, search_for.
  apply (run_returns_inv (step g e) (wf_config g s e) sr_wf_config_step
           (λ r, r = NoPathFound)); [|apply sr_wf_config_init].
  intros [[V rt h]|[V rt h] len curr todo] r'; simpl.
  - intros [Hwf _]. destruct h as [|[len curr] rest]; [by intros [= <-]|].
    case_bool_decide as Hend.
    + subst curr. destruct Hnc. apply (wf_conn _ _ _ _ Hwf).
      apply (wf_heap _ _ _ _ Hwf len). by left.
    + case_bool_decide; [done|]. by destruct (find_neighbors g curr).
  - intros _. destruct todo; [done|]. by destruct (relax _ _ _ _).
Qed.

(** A step changes [route] only in the [for] body, at an unvisited
    neighbour of the cell being expanded, and links it to that cell. *)
Lemma sr_route_write c c' p v o :
  wf_config g s e c → step g e c = Next c' →
  route (cfg_state c') !! p = Some (v, o) →
  route (cfg_state c) !! p ≠ Some (v, o) →
  (p ∉ visited (cfg_state c)) ∧
  (∃ q, o = Some q ∧ q ∈ visited (cfg_state c) ∧ adjacent q p ∧
        (q = s ∨ is_open g q)).
Proof.
  destruct c as [[V rt h]|[V rt h] len curr todo]; simpl.
  - intros _. destruct h as [|[len curr] rest]; [discriminate|].
    case_bool_decide; [by destruct (make_path _ _)|].
    case_bool_decide; [by intros [= <-]|].
    destruct (find_neighbors g curr); [|discriminate]. by intros [= <-].
  - intros (Hwf & Hs & Hcurr & Hedge & Hlen).
    destruct todo as [|nb todo]; [by intros [= <-]|].
    destruct (decide (nb ∈ V)) as [Hnb|Hnb].
    { rewrite sr_relax_visited by done. by intros [= <-]. }
    destruct (sr_relax_unvisited (State V rt h) len curr nb Hnb)
      as (rt' & -> & [[-> _]|[-> _]]); intros [= <-]; simpl; [done|].
    rewrite lookup_insert. case_decide; [|done]. subst p.
    intros [= <- <-] _. split; [done|]. exists curr.
    split; [done|]. split; [done|]. split; [apply Hedge; by left|].
    destruct (wf_chain _ _ _ _ Hwf curr Hcurr) as (l & Hc & _).
    inversion Hc as [? [v' o'] Hl Ho|? [v' o'] q l' Hl Ho _]; simpl in *; subst.
    + left. by eapply wf_root.
    + right. by destruct (wf_pred _ _ _ _ Hwf _ _ _ Hl) as (_ & _ & _ & ?).
Qed.

(** The walk of [make_path] from any key of [route] ends, at the start. *)
Lemma sr_walk_total c p :
  wf_config g s e c → is_Some (route (cfg_state c) !! p) →
  ∃ path, walk (size (route (cfg_state c))) (route (cfg_state c)) (Some p) []
          = Returns path ∧
          head path = Some p ∧ last path = Some s ∧ NoDup path.
Proof.
  intros Hc Hp.
  assert (Hwf : wf_state g s e (cfg_state c)) by (destruct c; apply Hc).
  destruct (sr_route_chain _ p Hwf Hp) as (l & Hch & Hnd & _).
  exists l. split; [|split; [|split]]; [|by eapply chain_head| |done].
  - rewrite (sr_walk_chain _ p l); [done..|]. by eapply chain_length.
  - destruct (chain_last _ _ _ _ Hch) as (t & [v o] & Hl & Ht & Ho).
    simpl in Ho. subst o. by rewrite Hl, (wf_root _ _ _ _ Hwf _ _ Ht).
Qed.

Lemma sr_root_unique c p :
  wf_config g s e c →
  (∃ v, route (cfg_state c) !! p = Some (v, None)) ↔ p = s.
Proof.
  intros Hc.
  assert (Hwf : wf_state g s e (cfg_state c)) by (destruct c; apply Hc).
  split; [intros [v Hv]; by eapply wf_root|].
  intros ->. exists 1. apply Hwf.
Qed.
(** *** [find_neighbors], exactly *)

Lemma sr_scan_neighbors_complete curr offs l y x :
  scan_neighbors g (Z.of_nat (length g) - 1) curr offs = Ok l →
  (y, x) ∈ offs → is_open g (curr.1 + y, curr.2 + x) →
  (curr.1 + y, curr.2 + x) ∈ l.
Proof.
  revert l. induction offs as [|[y' x'] offs IH]; intros l Hscan Hin Hopen.
  { by apply elem_of_nil in Hin. }
  simpl in Hscan. apply elem_of_cons in Hin as [[= <- <-]|Hin].
  - destruct Hopen as [Hgrid (ch & Hch & Hbar)]. simpl in *.
    apply outside_false in Hgrid. rewrite Hgrid, Hch, Hbar in Hscan.
    destruct (scan_neighbors _ _ _ offs); [|discriminate].
    injection Hscan as <-. by left.
  - destruct (outside _ _ _); [by eauto|].
    destruct (cell g _ _) as [ch|]; [|discriminate].
    destruct (is_barrier ch); [by eauto|].
    destruct (scan_neighbors _ _ _ offs) as [l'|]; [|discriminate].
    injection Hscan as <-. right. by eauto.
Qed.

Lemma sr_scan_neighbors_sublist curr offs l :
  scan_neighbors g (Z.of_nat (length g) - 1) curr offs = Ok l →
  sublist l ((λ o, (curr.1 + o.1, curr.2 + o.2)) <$> offs).
Proof.
  revert l. induction offs as [|[y x] offs IH]; intros l Hscan; simpl in Hscan.
  { injection Hscan as <-. constructor. }
  rewrite fmap_cons.
  destruct (outside _ _ _); [by apply sublist_cons, IH|].
  destruct (cell g _ _) as [ch|]; [|discriminate].
  destruct (is_barrier ch); [by apply sublist_cons, IH|].
  destruct (scan_neighbors _ _ _ offs) as [l'|]; [|discriminate].
  injection Hscan as <-. by apply sublist_skip, IH.
Qed.

Lemma sr_find_neighbors_exact curr :
  square g →
  ∃ l, find_neighbors g curr = Ok l ∧ NoDup l ∧ (length l ≤ 4)%nat ∧
       ∀ q, q ∈ l ↔ edge g curr q.
Proof.
  intros Hsq. destruct (sr_find_neighbors_ok curr Hsq) as [l Hl].
  exists l. split; [done|]. destruct (sr_find_neighbors_spec curr l Hl) as [Hlen Hedge].
  split; [|split; [done|]].
  - eapply sublist_NoDup; [|by apply sr_scan_neighbors_sublist].
    unfold offsets. simpl. repeat (constructor; [set_solver by lia|]). constructor.
  - intros q. split; [by auto|]. intros [Hadj Hopen].
    destruct (adjacent_offset _ _ Hadj) as (y & x & Hin & ->).
    by eapply sr_scan_neighbors_complete.
Qed.
(** *** Exceptions *)

Lemma sr_scan_neighbors_err curr offs x :
  scan_neighbors g (Z.of_nat (length g) - 1) curr offs = Err x → x = IndexError.
Proof.
  induction offs as [|[y' x'] offs IH]; simpl; [done|].
  destruct (outside _ _ _); [done|].
  destruct (cell g _ _) as [ch|]; [|by intros [= <-]].
  destruct (is_barrier ch); [done|].
  destruct (scan_neighbors _ _ _ offs); [done|]. intros [= <-]. by apply IH.
Qed.

Lemma sr_step_no_hang c : wf_config g s e c → step g e c ≠ Hang.
Proof.
  destruct c as [[V rt h]|[V rt h] len curr todo]; simpl.
  - intros [Hwf Hs]. destruct h as [|[len curr] rest]; [done|].
    case_bool_decide as Hend.
    + subst curr. unfold make_path.
      destruct (sr_route_chain _ e Hwf) as (l & Hc & Hnd & _).
      { apply (wf_heap _ _ _ _ Hwf len). by left. }
      simpl in Hc. by rewrite (make_path_from_chain _ _ _ Hc Hnd).
    + case_bool_decide; [done|]. by destruct (find_neighbors g curr).
  - intros _. destruct todo; [done|]. by destruct (relax _ _ _ _).
Qed.

Lemma sr_step_fail c x :
  wf_config g s e c → step g e c = Fail x → x = IndexError ∧ ¬ square g.
Proof.
  destruct c as [[V rt h]|[V rt h] len curr todo]; simpl.
  - intros [Hwf Hs]. destruct h as [|[len curr] rest]; [done|].
    case_bool_decide as Hend.
    + subst curr. unfold make_path.
      destruct (sr_route_chain _ e Hwf) as (l & Hc & Hnd & _).
      { apply (wf_heap _ _ _ _ Hwf len). by left. }
      simpl in Hc. by rewrite (make_path_from_chain _ _ _ Hc Hnd).
    + case_bool_decide; [done|].
      destruct (find_neighbors g curr) as [l|x'] eqn:Hn; [done|].
      intros [= ->]. split; [by eapply sr_scan_neighbors_err|].
      intros Hsq. destruct (sr_find_neighbors_ok curr Hsq) as [l Hl]. congruence.
  - intros _. destruct todo; [done|]. by destruct (relax _ _ _ _).
Qed.

Lemma sr_search_ends :
  search g s e ≠ OutOfFuel ∧
  ∀ x, search g s e = Raises x → x = IndexError ∧ ¬ square g.
Proof.
  unfold search, search_for. split.
  - apply (run_ends (step g e) (wf_config g s e) (measure g s)).
    + apply sr_wf_config_step.
    + apply sr_measure_step.
    + apply sr_step_no_hang.
    + apply sr_wf_config_init.
    + apply sr_measure_init.
  - intros x. apply (run_raises_inv (step g e) (wf_config g s e) sr_wf_config_step
                       (λ x, x = IndexError ∧ ¬ square g)).
    + apply sr_step_fail.
    + apply sr_wf_config_init.
Qed.
(** *** The length returned is the length of a path *)

Lemma sr_chain_valid_path st p l :
  wf_state g s e st → is_open g s → chain snd (route st) p l →
  valid_path g s p (reverse l) = true.
Proof.
  intros Hwf Hs. apply (chain_valid_path snd g s (route st)); [| |done].
  - intros p' [v o] q Hp Ho. simpl in Ho. subst o.
    by destruct (wf_pred _ _ _ _ Hwf _ _ _ Hp) as (_ & _ & ?).
  - intros p' [v o] Hp Ho. simpl in Ho. subst o. by eapply wf_root.
Qed.

Lemma sr_search_sound n :
  is_open g s → search g s e = Returns (PathLength n) →
  ∃ path, valid_path g s e path = true ∧ NoDup path ∧
          Z.of_nat (length path) = n.
Proof.
  intros Hs Hr. unfold search, search_for in Hr.
  refine (run_returns_inv (step g e) (wf_config g s e) sr_wf_config_step
            (λ r, ∀ n, r = PathLength n →
                  ∃ path, valid_path g s e path = true ∧ NoDup path ∧
                          Z.of_nat (length path) = n)
            _ _ _ _ sr_wf_config_init Hr n eq_refl).
  clear n Hr. intros [[V rt h]|[V rt h] len curr todo] r; simpl.
  - intros [Hwf _]. destruct h as [|[len curr] rest]; [by intros [= <-]|].
    case_bool_decide as Hend.
    + subst curr. unfold make_path.
      destruct (sr_route_chain _ e Hwf) as (l & Hc & Hnd & _).
      { apply (wf_heap _ _ _ _ Hwf len). by left. }
      simpl in Hc. rewrite (make_path_from_chain _ _ _ Hc Hnd). simpl.
      intros [= <-] n [= <-]. exists (reverse l).
      split; [by eapply (sr_chain_valid_path _ _ _ Hwf)|].
      split; [by rewrite reverse_Permutation|]. by rewrite length_reverse.
    + case_bool_decide; [done|]. by destruct (find_neighbors g curr).
  - intros _. destruct todo; [done|]. by destruct (relax _ _ _ _).
Qed.
(** *** A path is found whenever there is one *)

Lemma sr_closed_init : closed g (init s).
Proof. intros p q Hp. by apply elem_of_empty in Hp. Qed.

Lemma sr_closed_step c c' :
  closed g c → step g e c = Next c' → closed g c'.
Proof.
  destruct c as [[V rt h]|[V rt h] len curr todo]; unfold closed; simpl.
  - intros Hcl. destruct h as [|[len curr] rest]; [discriminate|].
    case_bool_decide as Hend; [by destruct (make_path _ _)|].
    case_bool_decide as Hv.
    + intros [= <-] p q Hp Hedge. simpl in *.
      destruct (Hcl p q Hp Hedge) as [?|[[l [[= -> ->]|Hl]%elem_of_cons]|[]]]; eauto.
    + destruct (find_neighbors g curr) as [nbs|] eqn:Hnbs; [|discriminate].
      intros [= <-] p q Hp Hedge. simpl in *.
      apply elem_of_union in Hp as [->%elem_of_singleton|Hp].
      * right. right. split; [done|]. destruct Hedge as [Hadj Hopen].
        destruct (adjacent_offset _ _ Hadj) as (y & x & Hin & ->).
        by eapply sr_scan_neighbors_complete.
      * destruct (Hcl p q Hp Hedge) as [?|[[l [[= -> ->]|Hl]%elem_of_cons]|[]]];
          [left; set_solver|left; set_solver|eauto].
  - intros Hcl. destruct todo as [|nb todo].
    { intros [= <-] p q Hp Hedge. simpl in *.
      destruct (Hcl p q Hp Hedge) as [?|[?|[_ []%elem_of_nil]]]; eauto. }
    destruct (decide (nb ∈ V)) as [Hnb|Hnb].
    + rewrite sr_relax_visited by done. intros [= <-] p q Hp Hedge. simpl in *.
      destruct (Hcl p q Hp Hedge) as [?|[?|[-> [->|?]%elem_of_cons]]]; eauto.
    + destruct (sr_relax_unvisited (State V rt h) len curr nb Hnb) as (rt' & -> & _).
      intros [= <-] p q Hp Hedge. simpl in *.
      destruct (Hcl p q Hp Hedge) as [?|[[l Hl]|[-> [->|?]%elem_of_cons]]]; eauto.
      * right. left. exists l. apply elem_of_heappush. by right.
      * right. left. exists (len + 1). apply elem_of_heappush. by left.
Qed.

Lemma sr_search_complete :
  square g → connected g s e → ∃ n, search g s e = Returns (PathLength n).
Proof.
  intros Hsq Hconn. destruct (sr_search_returns Hsq) as [r Hr].
  destruct r as [n|]; [by eauto|]. exfalso.
  unfold search, search_for in Hr.
  refine (run_returns_inv (step g e) (λ c, wf_config g s e c ∧ closed g c) _
            (λ r, r ≠ NoPathFound) _ _ _ _ _ Hr eq_refl).
  - intros c c' [Hwf Hcl] Hstep.
    split; [by eapply sr_wf_config_step|by eapply sr_closed_step].
  - intros [[V rt h]|[V rt h] len curr todo] r; simpl.
    + intros [[Hwf Hs] Hcl]. destruct h as [|[len curr] rest].
      * intros _ _. simpl in *. destruct Hs as [Hs|[_ ?]]; [|done].
        apply (wf_end _ _ _ _ Hwf). simpl.
        assert (Hall : ∀ x, connected g s x → x ∈ V); [|by apply Hall].
        induction 1 as [|p q _ IH Hedge]; [done|].
        destruct (Hcl p q IH Hedge) as [?|[[l []%elem_of_nil]|[]]]. done.
      * case_bool_decide;
          [destruct (make_path _ _); simpl; [by intros [= <-]|done..]|].
        case_bool_decide; [done|]. by destruct (find_neighbors g curr).
    + intros _. destruct todo; [done|]. by destruct (relax _ _ _ _).
  - split; [apply sr_wf_config_init|apply sr_closed_init].
Qed.
End WithSelf.
End ShortestRouteProofs.

(** ** MinTurns *)

Module MinTurnsProofs.
Import MinTurns.

Section WithSelf.
Context (g : grid) (s e : pos).

Lemma mt_scan_neighbors_spec curr prev offs l :
  (∀ y x, (y, x) ∈ offs → (y, x) ∈ offsets) →
  scan_neighbors g s (Z.of_nat (length g) - 1) curr prev offs = Ok l →
  (length l ≤ length offs)%nat ∧
  ∀ nb, nb ∈ l → edge g curr nb.1 ∧ listed s curr prev nb.
Proof.
  revert l. induction offs as [|[y x] offs IH]; intros l Hoffs Hscan; simpl in Hscan.
  - injection Hscan as Hl. subst. split; [done|]. by intros q ?%elem_of_nil.
  - assert (Hoffs' : ∀ y x, (y, x) ∈ offs → (y, x) ∈ offsets)
      by (intros; apply Hoffs; by right).
    destruct (outside _ _ _) eqn:Hout.
    { destruct (IH l Hoffs' Hscan) as [Hlen Hedge]. split; [simpl; lia|done]. }
    destruct (cell g _ _) as [ch|] eqn:Hcell; [|discriminate].
    destruct (is_barrier ch) eqn:Hbar.
    { destruct (IH l Hoffs' Hscan) as [Hlen Hedge]. split; [simpl; lia|done]. }
    destruct (is_turn s curr prev y) as [d|] eqn:Hturn; [|discriminate].
    destruct (scan_neighbors _ _ _ _ _ offs) as [l'|] eqn:Hrest; [|discriminate].
    injection Hscan as Hl. subst l.
    destruct (IH l' Hoffs' eq_refl) as [Hlen Hedge]. split; [simpl; lia|].
    intros q [->|Hq]%elem_of_cons; [|by auto].
    specialize (Hoffs y x (list_elem_of_here _ _)).
    pose proof (offsets_unit y x Hoffs).
    split; [|by exists y, x].
    split; [unfold adjacent; simpl; lia|].
    split; [by apply outside_false|]. simpl. eauto.
Qed.

Lemma mt_find_neighbors_spec curr prev l :
  find_neighbors g s curr prev = Ok l →
  (length l ≤ 4)%nat ∧ ∀ nb, nb ∈ l → edge g curr nb.1 ∧ listed s curr prev nb.
Proof. by apply mt_scan_neighbors_spec. Qed.

Lemma mt_scan_neighbors_ok curr prev offs :
  square g → curr = s ∨ is_Some prev →
  ∃ l, scan_neighbors g s (Z.of_nat (length g) - 1) curr prev offs = Ok l.
Proof.
  intros Hsq Hprev. induction offs as [|[y x] offs [l IH]]; simpl; [eauto|].
  destruct (outside _ _ _) eqn:Hout; [eauto|].
  apply outside_false in Hout.
  destruct (cell_square g _ Hsq Hout) as [ch Hch]. simpl in Hch. rewrite Hch.
  destruct (is_barrier ch); [eauto|].
  assert (∃ d, is_turn s curr prev y = Ok d) as [d ->].
  { unfold is_turn. case_bool_decide; [eauto|].
    destruct Hprev as [?|[[c q] ->]]; [done|eauto]. }
  rewrite IH. eauto.
Qed.

Lemma mt_find_neighbors_ok curr prev :
  square g → curr = s ∨ is_Some prev → ∃ l, find_neighbors g s curr prev = Ok l.
Proof. apply mt_scan_neighbors_ok. Qed.

(** The loop of [make_path] along a chain. *)
Lemma mt_walk_chain rt p l :
  chain pred_of rt p l →
  ∀ fuel w, w_curr_pos w = p → (length l ≤ S fuel)%nat →
  ∃ w', walk fuel rt w = Returns w' ∧ Some (w_curr_pos w') = last l ∧
        w_path_length w' = w_path_length w + Z.of_nat (length l) - 1.
Proof.
  induction 1 as [p [[c q]|] Hp Hv|p [[c q']|] q l Hp Hv Hc IH];
    intros fuel w Hw Hlen; try discriminate; simpl in *.
  - exists w. subst p. destruct fuel; simpl; rewrite Hp; (split; [done|]);
      (split; [by f_equal|lia]).
  - injection Hv as ->. destruct fuel as [|fuel].
    { destruct Hc; simpl in Hlen; lia. }
    simpl. subst p. rewrite Hp.
    edestruct (IH fuel) as (w' & Hwalk & Hlast & Hpl); [|lia|].
    2:{ exists w'. split; [exact Hwalk|]. split.
        - rewrite Hlast. by destruct Hc.
        - rewrite Hpl. simpl. lia. }
    done.
Qed.

Lemma mt_route_chain st p :
  wf_state g s st → is_Some (route st !! p) →
  ∃ l, chain pred_of (route st) p l ∧ NoDup l ∧ ∀ x, x ∈ l → x = p ∨ x ∈ visited st.
Proof.
  intros Hwf [o Hp].
  destruct (decide (p ∈ visited st)) as [Hv|Hv].
  { destruct (wf_chain _ _ _ Hwf p Hv) as (l & ? & ? & ?). eauto 6. }
  destruct o as [[c q]|].
  - destruct (wf_pred _ _ _ Hwf _ _ _ Hp) as (Hq & _ & _).
    destruct (wf_chain _ _ _ Hwf q Hq) as (l & Hc & Hnd & Hl).
    exists (p :: l). split; [by eapply chain_link|]. split.
    + constructor; [|done]. intros Hin. by apply Hv, Hl.
    + intros x [->|Hx]%elem_of_cons; auto.
  - exists [p]. split; [by eapply chain_end|]. split; [apply NoDup_singleton|].
    intros x ->%list_elem_of_singleton. by left.
Qed.

(** [make_path] returns: there is no missing key and no cycle. *)
Lemma make_path_returns st :
  wf_state g s st → ∃ r, make_path e (route st) = Returns r.
Proof.
  intros Hwf. unfold make_path, make_path_for, route_get.
  destruct (route st !! e) as [[v|]|] eqn:He; [|eauto..].
  destruct (mt_route_chain st e Hwf) as (l & Hc & Hnd & _); [by rewrite He|].
  edestruct (mt_walk_chain _ _ _ Hc (size (route st))) as (w' & -> & _); [|
    |eauto].
  - done.
  - pose proof (chain_length _ _ _ _ Hc Hnd). lia.
Qed.

(** *** The invariant holds throughout *)

Lemma mt_relax_visited st t curr nb :
  nb.1 ∈ visited st → relax st t curr nb = st.
Proof. intros Hv. destruct nb. unfold relax. by rewrite bool_decide_eq_true_2. Qed.

Lemma mt_relax_unvisited st t curr nb :
  nb.1 ∉ visited st →
  let count := new_count (turn_count st) nb.1 t nb.2 in
  ∃ rt', relax st t curr nb
         = State (visited st) rt' (<[nb.1 := count]> (turn_count st))
                 (heappush (open_pos st) (count, nb.1)) ∧
    ((rt' = route st ∧ ∃ c q, route st !! nb.1 = Some (Some (c, q)) ∧ c ≤ count) ∨
     (rt' = <[nb.1 := Some (count, curr)]> (route st) ∧
      (route_get (route st) nb.1 = None ∨
       ∃ c q, route st !! nb.1 = Some (Some (c, q)) ∧ count < c))).
Proof.
  destruct nb as [P d]. simpl. intros Hv. unfold relax.
  rewrite bool_decide_eq_false_2 by done. unfold route_get.
  destruct (route st !! P) as [[[c q]|]|] eqn:HP.
  - destruct (_ <? c) eqn:Hlt.
    + eexists. split; [done|]. right. split; [done|]. right.
      exists c, q. split; [done|lia].
    + eexists. split; [done|]. left. split; [done|]. exists c, q. split; [done|lia].
  - eexists. split; [done|]. right. split; [done|]. by left.
  - eexists. split; [done|]. right. split; [done|]. by left.
Qed.

Lemma mt_wf_state_pop V rt tc x rest :
  wf_state g s (State V rt tc (x :: rest)) → wf_state g s (State V rt tc rest).
Proof.
  intros [H1 H2 H3 H4 H5 H6]. split; simpl in *; try done.
  intros l p Hp. apply (H2 l p). by right.
Qed.

Lemma mt_wf_state_visit V rt tc h curr :
  wf_state g s (State V rt tc h) → is_Some (rt !! curr) →
  wf_state g s (State ({[curr]} ∪ V) rt tc h).
Proof.
  intros Hwf Hcurr. pose proof Hwf as [H1 H2 H3 H4 H5 H6].
  split; simpl in *; try done.
  - intros p v q Hp. destruct (H3 p v q Hp) as (? & ? & ?). split; [set_solver|done].
  - intros p [->%elem_of_singleton|Hp]%elem_of_union.
    + destruct (mt_route_chain (State V rt tc h) curr Hwf Hcurr) as (l & Hc & Hnd & Hl).
      exists l. split; [done|]. split; [done|].
      intros x Hx. destruct (Hl x Hx); set_solver.
    + destruct (H5 p Hp) as (l & ? & ? & ?). exists l. set_solver.
Qed.

Lemma mt_wf_state_push V rt tc tc' h c nb :
  wf_state g s (State V rt tc h) → is_Some (rt !! nb) →
  wf_state g s (State V rt tc' (heappush h (c, nb))).
Proof.
  intros [H1 H2 H3 H4 H5 H6] Hnb. split; simpl in *; try done.
  intros l p [Hp|Hp]%elem_of_heappush; [by simplify_eq|eauto].
Qed.

Lemma mt_wf_state_write V rt tc tc' h c curr nb :
  wf_state g s (State V rt tc h) → s ∈ V → curr ∈ V → nb ∉ V → edge g curr nb →
  wf_state g s (State V (<[nb := Some (c, curr)]> rt) tc' (heappush h (c, nb))).
Proof.
  intros [H1 H2 H3 H4 H5 H6] Hs Hcurr Hnb Hedge.
  assert (nb ≠ s) by (by intros ->).
  split; simpl in *; try done.
  - by rewrite lookup_insert_ne.
  - intros l p [Hp|Hp]%elem_of_heappush.
    + simplify_eq. rewrite lookup_insert_eq. eauto.
    + rewrite lookup_insert. case_decide; eauto.
  - intros p v q. rewrite lookup_insert. case_decide; [|by eauto].
    intros Hp. by simplify_eq.
  - intros p. rewrite lookup_insert. case_decide; [done|by eauto].
  - intros p Hp. destruct (H5 p Hp) as (l & Hc & Hnd & Hl).
    exists l. split; [|done]. apply chain_insert; [done|]. intros Hin. by apply Hnb, Hl.
  - intros p. rewrite lookup_insert. case_decide; [|by eauto].
    subst p. intros _. apply connected_step with curr; [|done].
    apply H6. destruct (H5 curr Hcurr) as (l & Hc & _).
    eapply chain_keys; [done|]. apply head_Some_elem_of. by eapply chain_head.
Qed.

#[local] Ltac split_for :=
  simpl; split; [|split; [|split; [|split]]]; [|done|done|done|simpl in *; lia].

Lemma mt_wf_config_init : wf_config g s (init s).
Proof.
  split; [|by right]. split; simpl.
  - by rewrite lookup_singleton_eq.
  - intros l p [= -> ->]%list_elem_of_singleton. rewrite lookup_singleton_eq. eauto.
  - intros p v q [_ [=]]%lookup_singleton_Some.
  - by intros p [-> _]%lookup_singleton_Some.
  - by intros p ?%elem_of_empty.
  - intros p [v [-> _]%lookup_singleton_Some]. constructor.
Qed.

Lemma mt_wf_config_step c c' :
  wf_config g s c → step g s e c = Next c' → wf_config g s c'.
Proof.
  destruct c as [[V rt tc h]|[V rt tc h] t curr todo]; simpl.
  - intros [Hwf Hs]. destruct h as [|[t curr] rest]; [by destruct (make_path _ _)|].
    assert (Hcurr : is_Some (rt !! curr))
      by (apply (wf_heap _ _ _ Hwf t); simpl; by left).
    case_bool_decide as Hv.
    + intros [= <-]. split; [by eapply mt_wf_state_pop|]. simpl in *.
      destruct Hs as [?|[-> _]]; [by left|]. by apply elem_of_empty in Hv.
    + destruct Hcurr as [prev Hprev]. rewrite Hprev.
      destruct (find_neighbors g s curr prev) as [nbs|] eqn:Hnbs; [|discriminate].
      intros [= <-]. apply mt_find_neighbors_spec in Hnbs as [Hlen Hedge].
      split; [|split; [|split; [set_solver|split; [|done]]]].
      * apply mt_wf_state_visit; [by eapply mt_wf_state_pop|by rewrite Hprev].
      * simpl in *. destruct Hs as [?|[_ ?]]; [set_solver|]. simplify_eq. set_solver.
      * intros nb Hnb. by apply Hedge.
  - intros (Hwf & Hs & Hcurr & Hedge & Hlen).
    destruct todo as [|nb todo]; [intros [= <-]; split; [done|by left]|].
    intros [= <-].
    assert (Hedge' : ∀ q, q ∈ todo → edge g curr q.1) by (intros; apply Hedge; by right).
    simpl in Hlen.
    destruct (decide (nb.1 ∈ V)) as [Hnb|Hnb].
    { rewrite mt_relax_visited by done. split_for. done. }
    destruct (mt_relax_unvisited (State V rt tc h) t curr nb Hnb)
      as (rt' & -> & [[-> (v & o & Hl & _)]|[-> _]]); simpl in *.
    + split_for. eapply mt_wf_state_push; eauto.
    + split_for. eapply mt_wf_state_write; eauto. apply Hedge. by left.
Qed.

(** *** Turn counts of cells on the lines through the start *)

Lemma pos_neq (p q : pos) : p ≠ q → p.1 ≠ q.1 ∨ p.2 ≠ q.2.
Proof.
  destruct p as [a b], q as [c d]. simpl. intros Hne.
  destruct (decide (a = c)) as [->|]; [|by left].
  right. intros ->. by apply Hne.
Qed.

Lemma elem_of_offsets y x :
  (y, x) ∈ offsets → (y = 0 ∧ (x = 1 ∨ x = -1)) ∨ (x = 0 ∧ (y = 1 ∨ y = -1)).
Proof.
  unfold offsets. rewrite !elem_of_cons, elem_of_nil.
  intros [?|[?|[?|[?|[]]]]]; simplify_eq; lia.
Qed.

(** Stepping between two cells of turn count 0 is no turn. *)
Lemma zero_to_zero_no_turn curr prev nb :
  listed s curr prev nb →
  (∀ c q, prev = Some (c, q) → aligned s curr q ∧ adjacent q curr) →
  (nb.1.1 = s.1 ∨ nb.1.2 = s.2) →
  nb.2 = false.
Proof.
  destruct nb as [P d]. intros (y & x & Hoff & HP & Hturn) Hprev Hline.
  simpl in *. unfold is_turn in Hturn.
  case_bool_decide as Hs; [by injection Hturn|].
  destruct prev as [[c q]|]; [|discriminate].
  destruct (Hprev c q eq_refl) as [Hal Hadj].
  apply pos_neq in Hs. apply elem_of_offsets in Hoff.
  injection Hturn as <-. subst P. simpl in *.
  unfold aligned, adjacent in *.
  case_bool_decide as Hq; simpl.
  - destruct (curr.1 =? q.1) eqn:Hrow; destruct (y =? 0) eqn:Hy; simpl; try done; lia.
  - subst q. lia.
Qed.

(** A step without turn from a cell of turn count 0 stays on its line. *)
Lemma zero_step_aligned curr prev nb :
  listed s curr prev nb → nb.2 = false →
  (∀ c q, prev = Some (c, q) → aligned s curr q ∧ adjacent q curr) →
  aligned s nb.1 curr.
Proof.
  destruct nb as [P d]. simpl. intros (y & x & Hoff & HP & Hturn) -> Hprev.
  simpl in *. unfold is_turn in Hturn. apply elem_of_offsets in Hoff.
  subst P. unfold aligned. simpl.
  case_bool_decide as Hs; [subst curr; lia|].
  destruct prev as [[c q]|]; [|discriminate].
  destruct (Hprev c q eq_refl) as [Hal Hadj].
  unfold aligned, adjacent in *. injection Hturn as Hturn.
  apply negb_false_iff in Hturn.
  case_bool_decide as Hq; simpl in Hturn.
  - destruct (curr.1 =? q.1) eqn:Hrow; destruct (y =? 0) eqn:Hy; simpl in Hturn;
      try discriminate; lia.
  - subst q. lia.
Qed.

(** *** [turn_count] only goes down *)

Section Relax.
Context (V : gset pos) (rt : gmap pos (option (Z * pos))) (tc : gmap pos Z)
  (h : list entry) (t : Z) (curr : pos) (nb : pos * bool) (todo : list (pos * bool)).
Hypothesis Hwf : wf_config g s (InFor (State V rt tc h) t curr (nb :: todo)).
Hypothesis Hcost : cost_config s (InFor (State V rt tc h) t curr (nb :: todo)).
Hypothesis Hnb : nb.1 ∉ V.

Lemma relax_not_start : nb.1 ≠ s.
Proof. destruct Hwf as (_ & Hs & _). intros Heq. apply Hnb. by rewrite Heq. Qed.

Lemma relax_not_curr : nb.1 ≠ curr.
Proof. destruct Hwf as (_ & _ & Hc & _). intros Heq. apply Hnb. by rewrite Heq. Qed.

Lemma relax_prev_aligned prev :
  t = 0 → rt !! curr = Some prev →
  ∀ c q, prev = Some (c, q) → aligned s curr q ∧ adjacent q curr.
Proof.
  intros Ht Hprev c q ->.
  destruct Hwf as (Hw & _). destruct Hcost as (Hc & _ & _ & Hcurr & _).
  specialize (Hcurr Ht). simpl in *.
  pose proof (cs_route_count _ _ Hc _ _ _ Hprev) as Hcnt. simpl in Hcnt.
  assert (c = 0) as -> by congruence.
  split; [by eapply (cs_zero_aligned _ _ Hc)|].
  by destruct (wf_pred _ _ _ Hw _ _ _ Hprev) as (_ & _ & ? & _).
Qed.

Lemma new_count_nonneg : 0 ≤ new_count tc nb.1 t nb.2.
Proof.
  destruct Hcost as (Hc & Ht & _). unfold new_count.
  pose proof (cs_count_nonneg _ _ Hc nb.1) as Hnn. simpl in Hnn.
  destruct (tc !! nb.1) as [v|]; [|destruct nb.2; simpl; lia].
  specialize (Hnn v eq_refl). destruct (v =? 0), nb.2; simpl; lia.
Qed.

Lemma new_count_zero :
  new_count tc nb.1 t nb.2 = 0 → tc !! nb.1 = Some 0 ∨ (t = 0 ∧ nb.2 = false).
Proof.
  destruct Hcost as (Hc & Ht & _). unfold new_count.
  pose proof (cs_count_nonneg _ _ Hc nb.1) as Hnn. simpl in Hnn.
  destruct (tc !! nb.1) as [v|].
  - specialize (Hnn v eq_refl). destruct (v =? 0) eqn:Hv.
    + intros _. left. f_equal. lia.
    + destruct nb.2; simpl; intros; [lia|]. right. split; [lia|done].
  - destruct nb.2; simpl; intros; [lia|]. right. split; [lia|done].
Qed.

(** The value written is never above the value recorded. *)
Lemma new_count_le v : tc !! nb.1 = Some v → new_count tc nb.1 t nb.2 ≤ v.
Proof.
  intros Hv. unfold new_count. rewrite Hv.
  destruct (v =? 0) eqn:Hv0; [|lia]. apply Z.eqb_eq in Hv0. subst v.
  destruct Hcost as (Hc & Ht & Hmin & Hcurr & prev & Hprev & Hlisted).
  assert (t = 0) as Ht0.
  { apply (Hmin nb.1). by apply (cs_zero_heap _ _ Hc). }
  assert (nb.2 = false) as ->; [|simpl; lia].
  apply (zero_to_zero_no_turn curr prev).
  - apply Hlisted. by left.
  - by apply relax_prev_aligned.
  - destruct (cs_count_route _ _ Hc _ _ Hv relax_not_start) as [q Hq].
    apply (cs_zero_aligned _ _ Hc) in Hq. unfold aligned in Hq. tauto.
Qed.
Lemma cost_config_relax :
  cost_config s (InFor (relax (State V rt tc h) t curr nb) t curr todo).
Proof.
  pose proof new_count_nonneg as Hnn. pose proof new_count_zero as Hzero.
  pose proof new_count_le as Hle. pose proof relax_not_start as Hns.
  pose proof relax_not_curr as Hnc.
  destruct (mt_relax_unvisited (State V rt tc h) t curr nb Hnb) as (rt' & -> & Hrt).
  simpl in Hrt. set (n := new_count tc nb.1 t nb.2) in *.
  destruct Hcost as (Hc & Ht & Hmin & Hcurr & prev & Hprev & Hlisted).
  pose proof Hc as [C1 C2 C3 C4 C5 C6 C7 C8 C9]. simpl in *.
  assert (Hkeep : rt' !! curr = rt !! curr).
  { destruct Hrt as [[-> _]|[-> _]]; [done|]. by rewrite lookup_insert_ne. }
  assert (Hother : ∀ p, p ≠ nb.1 → rt' !! p = rt !! p).
  { intros p Hp. destruct Hrt as [[-> _]|[-> _]]; [done|]. by rewrite lookup_insert_ne. }
  assert (Hself : ∃ q, rt' !! nb.1 = Some (Some (n, q))).
  { destruct Hrt as [[-> (c & q & Hq & Hcn)]|[-> _]].
    - exists q. rewrite Hq. repeat f_equal. specialize (Hle c (C7 _ _ _ Hq)). lia.
    - exists curr. by rewrite lookup_insert_eq. }
  split; [split; simpl|split; [done|split; [|split]]]; simpl.
  - by apply heappush_sorted.
  - intros c p [[= -> ->]|Hp]%elem_of_heappush; eauto.
  - intros p c. rewrite lookup_insert. case_decide; [by intros [= <-]|eauto].
  - by rewrite lookup_insert_ne.
  - intros p [[= Hn ->]|Hp]%elem_of_heappush.
    + by rewrite lookup_insert_eq, <- Hn.
    + rewrite lookup_insert. case_decide as Hp'; [|eauto]. subst p.
      specialize (Hle 0 (C5 _ Hp)). f_equal. lia.
  - intros p. rewrite lookup_insert. case_decide as Hp'.
    + subst p. intros [= ->] _. apply elem_of_heappush. by left.
    + intros Hp Hv. apply elem_of_heappush. right. eauto.
  - intros p c q Hp. rewrite lookup_insert. case_decide as Hp'.
    + subst p. destruct Hself as [q' Hq']. rewrite Hq' in Hp. by injection Hp as <- _.
    + rewrite Hother in Hp by done. eauto.
  - intros p c. rewrite lookup_insert. case_decide as Hp'.
    + subst p. by intros [= <-] _.
    + intros Hp Hps. rewrite Hother by done. eauto.
  - intros p q Hp. destruct (decide (p = nb.1)) as [->|Hp'].
    2:{ rewrite Hother in Hp by done. eauto. }
    destruct Hrt as [[-> _]|[-> Hold]]; [eauto|].
    rewrite lookup_insert_eq in Hp. injection Hp as Hn <-.
    destruct (Hzero Hn) as [Hz|[Ht0 Hd]].
    + destruct (C8 _ _ Hz Hns) as [q0 Hq]. unfold route_get in Hold. rewrite Hq in Hold.
      destruct Hold as [|(c & q' & [= <- <-] & ?)]; [done|lia].
    + apply (zero_step_aligned curr prev); [apply Hlisted; by left|done|].
      by apply relax_prev_aligned.
  - intros p [[= Hn ->]|Hp]%elem_of_heappush; [|eauto].
    symmetry in Hn. destruct (Hzero Hn) as [Hz|[Ht0 _]]; [|done].
    apply (Hmin nb.1). eauto.
  - intros Ht0. rewrite lookup_insert_ne by done. auto.
  - exists prev. rewrite Hkeep. split; [done|]. intros nb' Hnb'. apply Hlisted. by right.
Qed.
End Relax.

Lemma cost_state_pop V V' rt tc t curr rest :
  cost_state s (State V rt tc ((t, curr) :: rest)) → curr ∈ V' → V ⊆ V' →
  cost_state s (State V' rt tc rest).
Proof.
  intros [C1 C2 C3 C4 C5 C6 C7 C8 C9] Hcurr Hsub. split; simpl in *; try done.
  - by apply StronglySorted_inv in C1 as [? _].
  - intros c p Hp. apply (C2 c p). by right.
  - intros p Hp. apply C5. by right.
  - intros p Hp Hv. assert (Hin : (0, p) ∈ (t, curr) :: rest) by (apply C6; set_solver).
    apply elem_of_cons in Hin as [Heq|?]; [|done].
    injection Heq as _ ->. done.
Qed.

Lemma cost_config_init : cost_config s (init s).
Proof.
  split; simpl.
  - repeat constructor.
  - by intros c p [= -> ->]%list_elem_of_singleton.
  - by intros p c [_ <-]%lookup_singleton_Some.
  - by rewrite lookup_singleton_eq.
  - intros p [= ->]%list_elem_of_singleton. by rewrite lookup_singleton_eq.
  - intros p [-> _]%lookup_singleton_Some _. by left.
  - by intros p c q [_ ?]%lookup_singleton_Some.
  - by intros p c [-> _]%lookup_singleton_Some.
  - by intros p q [_ ?]%lookup_singleton_Some.
Qed.

Lemma cost_config_step c c' :
  wf_config g s c → cost_config s c → step g s e c = Next c' → cost_config s c'.
Proof.
  destruct c as [[V rt tc h]|[V rt tc h] t curr todo]; simpl.
  - intros [Hwf Hs] Hc. destruct h as [|[t curr] rest]; [by destruct (make_path _ _)|].
    case_bool_decide as Hv.
    { intros [= <-]. simpl. by eapply cost_state_pop. }
    destruct (rt !! curr) as [prev|] eqn:Hprev; [|discriminate].
    destruct (find_neighbors g s curr prev) as [nbs|] eqn:Hnbs; [|discriminate].
    intros [= <-]. apply mt_find_neighbors_spec in Hnbs as [_ Hnbs].
    assert (0 ≤ t) as Ht by (apply (cs_heap_nonneg _ _ Hc t curr); by left).
    split; [eapply cost_state_pop; [done|set_solver..]|].
    split; [done|]. split; [|split].
    + intros p Hp. pose proof (cs_sorted _ _ Hc) as Hsorted. simpl in Hsorted.
      apply StronglySorted_inv in Hsorted as [_ Hall].
      rewrite Forall_forall in Hall. specialize (Hall _ Hp).
      unfold prio_le in Hall. simpl in *. lia.
    + intros ->. apply (cs_heap_zero _ _ Hc). by left.
    + exists prev. split; [done|]. intros nb Hnb. by apply Hnbs.
  - intros Hwf Hc. destruct todo as [|nb todo]; [intros [= <-]; apply Hc|].
    intros [= <-]. destruct (decide (nb.1 ∈ V)) as [Hnb|Hnb].
    + rewrite mt_relax_visited by done.
      destruct Hc as (? & ? & ? & ? & prev & ? & Hl).
      repeat (split; [done|]). exists prev. split; [done|].
      intros nb' Hnb'. apply Hl. by right.
    + by apply cost_config_relax.
Qed.

Lemma invariant_init : invariant g s (init s).
Proof. split; [apply mt_wf_config_init|apply cost_config_init]. Qed.

Lemma invariant_step c c' :
  invariant g s c → step g s e c = Next c' → invariant g s c'.
Proof.
  intros [Hwf Hc] Hstep. split; [by eapply mt_wf_config_step|by eapply cost_config_step].
Qed.

Lemma reachable_invariant c :
  reachable (step g s e) (init s) c → invariant g s c.
Proof. apply reachable_inv; [apply invariant_step|apply invariant_init]. Qed.

(** One step never raises a recorded turn count. *)
Lemma turn_count_step c c' p v :
  invariant g s c → step g s e c = Next c' →
  turn_count (cfg_state c) !! p = Some v →
  ∃ v', turn_count (cfg_state c') !! p = Some v' ∧ v' ≤ v.
Proof.
  intros [Hwf Hc]. destruct c as [[V rt tc h]|[V rt tc h] t curr todo]; simpl.
  - destruct h as [|[t curr] rest]; [by destruct (make_path _ _)|].
    case_bool_decide; [intros [= <-]; simpl; by eauto with lia|].
    destruct (rt !! curr) as [prev|]; [|discriminate].
    destruct (find_neighbors g s curr prev); [|discriminate].
    intros [= <-]. simpl. eauto with lia.
  - destruct todo as [|nb todo]; [intros [= <-]; simpl; by eauto with lia|].
    intros [= <-]. simpl. destruct (decide (nb.1 ∈ V)) as [Hnb|Hnb].
    + rewrite mt_relax_visited by done. simpl. eauto with lia.
    + destruct (mt_relax_unvisited (State V rt tc h) t curr nb Hnb) as (rt' & -> & _).
      simpl. rewrite lookup_insert. case_decide as Hp; [|by eauto with lia].
      subst p. intros Hv. eexists. split; [done|]. by eapply new_count_le.
Qed.

(** *** Termination *)

Lemma mt_route_key_universe st p :
  wf_state g s st → is_Some (route st !! p) → p ∈ universe g s.
Proof.
  intros Hwf [[[c q]|] Hp]; apply elem_of_universe.
  - right. by destruct (wf_pred _ _ _ Hwf _ _ _ Hp) as (_ & _ & _ & [? _]).
  - left. by eapply wf_root.
Qed.

Lemma mt_measure_step c c' :
  wf_config g s c → step g s e c = Next c' → (measure g s c' < measure g s c)%nat.
Proof.
  destruct c as [[V rt tc h]|[V rt tc h] t curr todo]; unfold measure; simpl.
  - intros [Hwf Hs]. destruct h as [|[t curr] rest]; [by destruct (make_path _ _)|].
    case_bool_decide as Hv; [intros [= <-]; simpl; lia|].
    destruct (rt !! curr) as [prev|] eqn:Hprev; [|discriminate].
    destruct (find_neighbors g s curr prev) as [nbs|] eqn:Hnbs; [|discriminate].
    intros [= <-]. apply mt_find_neighbors_spec in Hnbs as [Hlen _]. simpl.
    assert (Hu : curr ∈ universe g s).
    { eapply mt_route_key_universe; [done|]. simpl. by rewrite Hprev. }
    assert (size (universe g s ∖ ({[curr]} ∪ V)) < size (universe g s ∖ V))%nat.
    { apply subset_size. set_solver. }
    lia.
  - intros _. destruct todo as [|nb todo]; [intros [= <-]; simpl; lia|].
    intros [= <-]. destruct (decide (nb.1 ∈ V)) as [Hnb|Hnb].
    + rewrite mt_relax_visited by done. simpl. lia.
    + destruct (mt_relax_unvisited (State V rt tc h) t curr nb Hnb) as (rt' & -> & _).
      simpl. rewrite length_heappush. lia.
Qed.

Lemma mt_step_safe c :
  square g → wf_config g s c →
  step g s e c ≠ Hang ∧ ∀ x, step g s e c ≠ Fail x.
Proof.
  intros Hsq. destruct c as [[V rt tc h]|[V rt tc h] t curr todo]; simpl.
  - intros [Hwf Hs]. destruct h as [|[t curr] rest].
    { destruct (make_path_returns _ Hwf) as [r Hr]. simpl in Hr. by rewrite Hr. }
    case_bool_decide; [done|].
    destruct (wf_heap _ _ _ Hwf t curr) as [prev Hprev]; [by left|].
    simpl in Hprev. rewrite Hprev.
    destruct (mt_find_neighbors_ok curr prev Hsq) as [l ->]; [|done].
    destruct prev; [by right|]. left. by eapply wf_root.
  - intros _. by destruct todo.
Qed.

Lemma mt_measure_init : (measure g s (init s) < search_fuel g)%nat.
Proof.
  unfold measure, search_fuel. simpl.
  assert (size (universe g s ∖ ∅) ≤ size (universe g s))%nat
    by (apply subseteq_size; set_solver).
  pose proof (size_universe g s). lia.
Qed.

Lemma mt_search_returns : square g → ∃ r, search g s e = Returns r.
Proof.
  intros Hsq. unfold search, search_for.
  apply (run_total (step g s e) (wf_config g s) (measure g s)).
  - apply mt_wf_config_step.
  - apply mt_measure_step.
  - intros c. by apply mt_step_safe.
  - apply mt_wf_config_init.
  - apply mt_measure_init.
Qed.

Lemma mt_search_for_enough fuel r :
  search g s e = Returns r → (search_fuel g ≤ fuel)%nat →
  search_for g s e fuel = Returns r.
Proof. apply run_more. Qed.

(** *** What the search returns *)

Lemma search_halts_with (P : result → Prop) :
  square g →
  (∀ st, wf_state g s st → ∀ r, make_path e (route st) = Returns r → P r) →
  ∃ r, search g s e = Returns r ∧ P r.
Proof.
  intros Hsq HP. destruct (mt_search_returns Hsq) as [r Hr]. exists r. split; [done|].
  revert Hr. unfold search, search_for.
  apply (run_returns_inv (step g s e) (wf_config g s) mt_wf_config_step P);
    [|apply mt_wf_config_init].
  intros [[V rt tc h]|[V rt tc h] t curr todo] r'; simpl.
  - intros [Hwf _]. destruct h as [|[t curr] rest].
    + destruct (make_path e rt) eqn:Hmp; simpl; try done.
      intros [= <-]. by eapply (HP _ Hwf).
    + case_bool_decide; [done|]. destruct (rt !! curr) as [prev|]; [|done].
      by destruct (find_neighbors g s curr prev).
  - intros _. by destruct todo.
Qed.

Lemma mt_search_same_cell :
  e = s → square g → search g s e = Returns NoPathFound.
Proof.
  intros He Hsq.
  destruct (search_halts_with (λ r, r = NoPathFound) Hsq) as (r & -> & ->); [|done].
  intros st Hwf r. unfold make_path, make_path_for, route_get.
  rewrite He, (wf_start _ _ _ Hwf). by intros [= <-].
Qed.

Lemma mt_search_disconnected :
  square g → ¬ connected g s e → search g s e = Returns NoPathFound.
Proof.
  intros Hsq Hnc.
  destruct (search_halts_with (λ r, r = NoPathFound) Hsq) as (r & -> & ->); [|done].
  intros st Hwf r. unfold make_path, make_path_for, route_get.
  destruct (route st !! e) as [[v|]|] eqn:He; [|by intros [= <-]..].
  destruct Hnc. apply (wf_conn _ _ _ Hwf). by rewrite He.
Qed.

(** A step changes [route] only in the [for] body, at an unvisited
    neighbour of the cell being expanded, and links it to that cell. *)
Lemma mt_route_write c c' p o :
  wf_config g s c → step g s e c = Next c' →
  route (cfg_state c') !! p = Some o →
  route (cfg_state c) !! p ≠ Some o →
  (p ∉ visited (cfg_state c)) ∧
  (∃ v q, o = Some (v, q) ∧ q ∈ visited (cfg_state c) ∧ adjacent q p ∧
          (q = s ∨ is_open g q)).
Proof.
  destruct c as [[V rt tc h]|[V rt tc h] t curr todo]; simpl.
  - intros _. destruct h as [|[t curr] rest]; [by destruct (make_path _ _)|].
    case_bool_decide; [by intros [= <-]|].
    destruct (rt !! curr) as [prev|]; [|discriminate].
    destruct (find_neighbors g s curr prev); [|discriminate]. by intros [= <-].
  - intros (Hwf & Hs & Hcurr & Hedge & Hlen).
    destruct todo as [|nb todo]; [by intros [= <-]|].
    intros [= <-]. destruct (decide (nb.1 ∈ V)) as [Hnb|Hnb].
    { by rewrite mt_relax_visited by done. }
    destruct (mt_relax_unvisited (State V rt tc h) t curr nb Hnb)
      as (rt' & -> & [[-> _]|[-> _]]); simpl; [done|].
    rewrite lookup_insert. case_decide; [|done]. subst p.
    intros [= <-] _. split; [done|]. eexists _, curr.
    split; [done|]. split; [done|]. split; [apply Hedge; by left|].
    destruct (wf_chain _ _ _ Hwf curr Hcurr) as (l & Hc & _).
    inversion Hc as [? [[v' q']|] Hl Ho|? [[v' q']|] q l' Hl Ho _];
      simpl in *; subst; try discriminate.
    + left. by eapply wf_root.
    + right. by destruct (wf_pred _ _ _ Hwf _ _ _ Hl) as (_ & _ & _ & ?).
Qed.

(** The loop of [make_path], started at any key of [route], ends with
    [curr_pos] at the start. *)
Lemma mt_walk_total c w :
  wf_config g s c → is_Some (route (cfg_state c) !! w_curr_pos w) →
  ∃ w', walk (size (route (cfg_state c))) (route (cfg_state c)) w = Returns w' ∧
        w_curr_pos w' = s.
Proof.
  intros Hc Hp.
  assert (Hwf : wf_state g s (cfg_state c)) by (destruct c; apply Hc).
  destruct (mt_route_chain _ _ Hwf Hp) as (l & Hch & Hnd & _).
  destruct (mt_walk_chain _ _ _ Hch (size (route (cfg_state c))) w eq_refl)
    as (w' & Hw & Hlast & _).
  { pose proof (chain_length _ _ _ _ Hch Hnd). lia. }
  exists w'. split; [done|].
  destruct (chain_last _ _ _ _ Hch) as (t & [[v q]|] & Hl & Ht & Ho); [done|].
  rewrite Hl in Hlast. injection Hlast as ->. by eapply wf_root.
Qed.

Lemma mt_root_unique c p :
  wf_config g s c → route (cfg_state c) !! p = Some None ↔ p = s.
Proof.
  intros Hc.
  assert (Hwf : wf_state g s (cfg_state c)) by (destruct c; apply Hc).
  split; [apply (wf_root _ _ _ Hwf)|]. intros ->. apply Hwf.
Qed.

Lemma mt_reachable_wf c : reachable (step g s e) (init s) c → wf_config g s c.
Proof. apply reachable_inv; [apply mt_wf_config_step|apply mt_wf_config_init]. Qed.
(** *** [find_neighbors]: cells, turn flags and the missing predecessor *)

Lemma mt_find_neighbors_cells curr prev l :
  find_neighbors g s curr prev = Ok l →
  ShortestRoute.find_neighbors g curr = Ok l.*1.
Proof.
  unfold find_neighbors, ShortestRoute.find_neighbors.
  generalize offsets as offs. intros offs. revert l.
  induction offs as [|[y x] offs IH]; intros l; simpl.
  { by intros [= <-]. }
  destruct (outside _ _ _); [by auto|].
  destruct (cell g _ _) as [ch|]; [|discriminate].
  destruct (is_barrier ch); [by auto|].
  destruct (is_turn s curr prev y); [|discriminate].
  destruct (scan_neighbors _ _ _ _ _ offs) as [l'|]; [|discriminate].
  intros [= <-]. by rewrite (IH l' eq_refl).
Qed.

Lemma mt_listed_axis curr prev nb :
  listed s curr prev nb →
  (curr = s → nb.2 = false) ∧
  (∀ c from, curr ≠ s → prev = Some (c, from) → adjacent from curr →
     nb.2 = negb (axis_eqb (step_axis from curr) (step_axis curr nb.1))).
Proof.
  destruct nb as [P d]. intros (y & x & Hoff & HP & Hturn). simpl in *.
  unfold is_turn in Hturn. split.
  - intros ->. rewrite bool_decide_eq_true_2 in Hturn by done. by injection Hturn.
  - intros c from Hs -> Hadj. rewrite bool_decide_eq_false_2 in Hturn by done.
    injection Hturn as <-. subst P. f_equal. unfold step_axis, adjacent in *.
    apply elem_of_offsets in Hoff. simpl.
    case_bool_decide as Hq; simpl.
    + destruct (curr.1 =? from.1) eqn:H1, (from.1 =? curr.1) eqn:H2,
        (y =? 0) eqn:H3, (curr.1 =? curr.1 + y) eqn:H4; simpl; try done; lia.
    + subst from. lia.
Qed.

Lemma mt_scan_neighbors_no_prev curr offs :
  square g → curr ≠ s →
  ((∃ y x, (y, x) ∈ offs ∧ is_open g (curr.1 + y, curr.2 + x)) →
   scan_neighbors g s (Z.of_nat (length g) - 1) curr None offs = Err TypeError) ∧
  ((∀ y x, (y, x) ∈ offs → ¬ is_open g (curr.1 + y, curr.2 + x)) →
   scan_neighbors g s (Z.of_nat (length g) - 1) curr None offs = Ok []).
Proof.
  intros Hsq Hs. induction offs as [|[y x] offs [IH1 IH2]]; simpl.
  { split; [|done]. by intros (y & x & ?%elem_of_nil & _). }
  assert (Hturn : is_turn s curr None y = Err TypeError).
  { unfold is_turn. by rewrite bool_decide_eq_false_2. }
  destruct (outside _ _ _) eqn:Hout.
  { split.
    - intros (y' & x' & [[= -> ->]|Hin]%elem_of_cons & Hopen); [|by eauto].
      destruct Hopen as [Hgrid _]. apply outside_false in Hgrid. congruence.
    - intros Hno. apply IH2. intros y' x' Hin. apply Hno. by right. }
  apply outside_false in Hout.
  destruct (cell_square g _ Hsq Hout) as [ch Hch]. simpl in Hch. rewrite Hch.
  destruct (is_barrier ch) eqn:Hbar.
  - split.
    + intros (y' & x' & [[= -> ->]|Hin]%elem_of_cons & Hopen); [|by eauto].
      destruct Hopen as [_ (ch' & Hch' & Hbar')]. simpl in *. congruence.
    + intros Hno. apply IH2. intros y' x' Hin. apply Hno. by right.
  - rewrite Hturn. split; [done|]. intros Hno. destruct (Hno y x); [by left|].
    split; [done|]. exists ch. done.
Qed.

Lemma mt_find_neighbors_no_prev curr :
  square g → curr ≠ s →
  ((∃ q, edge g curr q) → find_neighbors g s curr None = Err TypeError) ∧
  ((∀ q, ¬ edge g curr q) → find_neighbors g s curr None = Ok []).
Proof.
  intros Hsq Hs.
  destruct (mt_scan_neighbors_no_prev curr offsets Hsq Hs) as [H1 H2]. split.
  - intros [q [Hadj Hopen]]. apply H1.
    destruct (adjacent_offset _ _ Hadj) as (y & x & Hin & ->). eauto.
  - intros Hno. apply H2. intros y x Hin Hopen. apply (Hno (curr.1 + y, curr.2 + x)).
    split; [|done]. pose proof (offsets_unit y x Hin). unfold adjacent. simpl. lia.
Qed.
(** *** Exceptions *)

Lemma mt_scan_neighbors_err curr prev offs x :
  curr = s ∨ is_Some prev →
  scan_neighbors g s (Z.of_nat (length g) - 1) curr prev offs = Err x →
  x = IndexError.
Proof.
  intros Hprev. induction offs as [|[y' x'] offs IH]; simpl; [done|].
  destruct (outside _ _ _); [done|].
  destruct (cell g _ _) as [ch|]; [|by intros [= <-]].
  destruct (is_barrier ch); [done|].
  assert (∃ d, is_turn s curr prev y' = Ok d) as [d ->].
  { unfold is_turn. case_bool_decide; [eauto|].
    destruct Hprev as [?|[[c q] ->]]; [done|eauto]. }
  destruct (scan_neighbors _ _ _ _ _ offs); [done|]. intros [= <-]. by apply IH.
Qed.

Lemma mt_step_no_hang c : wf_config g s c → step g s e c ≠ Hang.
Proof.
  destruct c as [[V rt tc h]|[V rt tc h] t curr todo]; simpl.
  - intros [Hwf Hs]. destruct h as [|[t curr] rest].
    { destruct (make_path_returns _ Hwf) as [r Hr]. simpl in Hr. by rewrite Hr. }
    case_bool_decide; [done|]. destruct (rt !! curr) as [prev|]; [|done].
    by destruct (find_neighbors g s curr prev).
  - intros _. by destruct todo.
Qed.

Lemma mt_step_fail c x :
  wf_config g s c → step g s e c = Fail x → x = IndexError ∧ ¬ square g.
Proof.
  destruct c as [[V rt tc h]|[V rt tc h] t curr todo]; simpl.
  - intros [Hwf Hs]. destruct h as [|[t curr] rest].
    { destruct (make_path_returns _ Hwf) as [r Hr]. simpl in Hr. by rewrite Hr. }
    case_bool_decide; [done|].
    destruct (wf_heap _ _ _ Hwf t curr) as [prev Hprev]; [by left|].
    simpl in Hprev. rewrite Hprev.
    assert (Hp : curr = s ∨ is_Some prev).
    { destruct prev; [by right|]. left. by eapply wf_root. }
    destruct (find_neighbors g s curr prev) as [l|x'] eqn:Hn; [done|].
    intros [= ->]. split; [by eapply mt_scan_neighbors_err|].
    intros Hsq. destruct (mt_find_neighbors_ok curr prev Hsq Hp) as [l Hl]. congruence.
  - intros _. by destruct todo.
Qed.

Lemma mt_search_ends :
  search g s e ≠ OutOfFuel ∧
  ∀ x, search g s e = Raises x → x = IndexError ∧ ¬ square g.
Proof.
  unfold search, search_for. split.
  - apply (run_ends (step g s e) (wf_config g s) (measure g s)).
    + apply mt_wf_config_step.
    + apply mt_measure_step.
    + apply mt_step_no_hang.
    + apply mt_wf_config_init.
    + apply mt_measure_init.
  - intros x. apply (run_raises_inv (step g s e) (wf_config g s) mt_wf_config_step
                       (λ x, x = IndexError ∧ ¬ square g)).
    + apply mt_step_fail.
    + apply mt_wf_config_init.
Qed.
(** *** The turns and length returned are those of a path *)

Lemma mt_flip_spec (p q : pos) (x : Z) :
  adjacent q p → x = 0 ∨ x = 1 →
  let changed := negb (coord q x =? coord p x) in
  (if changed then (if x =? 0 then 1 else 0) else x)
    = (if axis_eqb (step_axis p q) horizontal then 0 else 1) ∧
  changed = negb (axis_eqb (if x =? 0 then horizontal else vertical) (step_axis p q)).
Proof.
  unfold adjacent, coord, step_axis. intros Hadj [-> | ->]; simpl.
  - destruct (q.1 =? p.1) eqn:H1, (p.1 =? q.1) eqn:H2; simpl; try done; lia.
  - destruct (q.2 =? p.2) eqn:H1, (p.1 =? q.1) eqn:H2; simpl; try done; lia.
Qed.

Lemma mt_walk_turns rt p l :
  chain pred_of rt p l →
  (∀ p v q, rt !! p = Some (Some (v, q)) → adjacent q p) →
  ∀ fuel w ctx,
    w_curr_pos w = p → w_prev_pos w = p → w_x w = 0 ∨ w_x w = 1 →
    match ctx with
    | None => w_prev_is_end w = true
    | Some p0 =>
        w_prev_is_end w = false ∧
        w_x w = (if axis_eqb (step_axis p0 p) horizontal then 0 else 1)
    end →
    (length l ≤ S fuel)%nat →
    ∃ w', walk fuel rt w = Returns w' ∧
          Z.of_nat (length (w_turn_coords w'))
          = Z.of_nat (length (w_turn_coords w)) + path_turns (option_list ctx ++ l) ∧
          w_path_length w' = w_path_length w + Z.of_nat (length l) - 1.
Proof.
  intros Hc Hadj.
  induction Hc as [p [[c q]|] Hp Hv|p [[c q']|] q l Hp Hv Hc IH];
    intros fuel w ctx Hcurr Hprev Hx Hctx Hlen; try discriminate; simpl in *.
  - exists w. subst p. split; [destruct fuel; simpl; by rewrite Hp|].
    split; [|lia]. destruct ctx; simpl; lia.
  - injection Hv as ->. destruct fuel as [|fuel].
    { destruct Hc; simpl in Hlen; lia. }
    simpl. rewrite Hcurr, Hp, Hprev.
    destruct (mt_flip_spec p q (w_x w) (Hadj _ _ _ Hp) Hx) as [Hx' Hch].
    simpl in Hx', Hch.
    set (changed := negb (coord q (w_x w) =? coord p (w_x w))) in *.
    edestruct (IH fuel (WalkState q q false
                 (if changed then if w_x w =? 0 then 1 else 0 else w_x w)
                 (if changed && negb (w_prev_is_end w)
                  then w_turn_coords w ++ [p] else w_turn_coords w)
                 (w_path_length w + 1)) (Some p))
      as (w' & Hwalk & Hturns & Hpl); simpl; [done|done| |by rewrite Hx'|lia|].
    { destruct changed; [destruct (w_x w =? 0); lia|done]. }
    cbn [w_turn_coords w_path_length] in Hturns, Hpl.
    exists w'. split; [done|]. split; [|rewrite ?Zpos_P_of_succ_nat; lia].
    rewrite Hturns.
    assert (Hl : ∃ l', l = q :: l') by (destruct Hc; eauto).
    destruct Hl as [l' ->].
    destruct ctx as [p0|]; simpl in Hctx.
    + destruct Hctx as [Hfirst Hx0]. rewrite Hfirst. rewrite andb_true_r.
      change (option_list (Some p0) ++ p :: q :: l') with (p0 :: p :: q :: l').
      rewrite path_turns_cons3.
      change (option_list (Some p) ++ q :: l') with (p :: q :: l').
      rewrite Hch, Hx0. generalize (path_turns (p :: q :: l')). intros T.
      destruct (step_axis p0 p), (step_axis p q); simpl;
        rewrite ?length_app; simpl; lia.
    + rewrite Hctx, andb_false_r. done.
Qed.
Lemma mt_make_path_sound st t n :
  wf_state g s st → is_open g s →
  make_path e (route st) = Returns (Path t n) →
  ∃ path, valid_path g s e path = true ∧ NoDup path ∧
          Z.of_nat (length path) = n ∧ path_turns path = t.
Proof.
  intros Hwf Hs. unfold make_path, make_path_for, route_get.
  destruct (route st !! e) as [[v|]|] eqn:He; [|done..].
  destruct (mt_route_chain st e Hwf) as (l & Hc & Hnd & _); [by rewrite He|].
  edestruct (mt_walk_turns _ _ _ Hc) with
    (fuel := size (route st)) (w := WalkState e e true 0 [] 1) (ctx := @None pos)
    as (w' & -> & Hturns & Hpl); simpl; try done.
  - intros p c q Hp. by destruct (wf_pred _ _ _ Hwf _ _ _ Hp) as (_ & _ & ? & _).
  - by left.
  - pose proof (chain_length _ _ _ _ Hc Hnd). lia.
  - cbn [w_turn_coords w_path_length option_list app length] in Hturns, Hpl.
    intros [= <- <-]. exists (reverse l).
    split; [|split; [by rewrite reverse_Permutation|split]].
    + apply (chain_valid_path pred_of g s (route st)); [| |done..].
      * intros p [[c q']|] q Hp Hq; [|done]. injection Hq as ->.
        by destruct (wf_pred _ _ _ Hwf _ _ _ Hp) as (_ & _ & ?).
      * intros p [[c q']|] Hp Hq; [done|]. by eapply wf_root.
    + rewrite length_reverse. lia.
    + rewrite path_turns_reverse, length_reverse.
      change (option_list None ++ l) with l in Hturns. lia.
Qed.

Lemma mt_search_sound t n :
  is_open g s → search g s e = Returns (Path t n) →
  ∃ path, valid_path g s e path = true ∧ NoDup path ∧
          Z.of_nat (length path) = n ∧ path_turns path = t.
Proof.
  intros Hs Hr. unfold search, search_for in Hr.
  refine (run_returns_inv (step g s e) (wf_config g s) mt_wf_config_step
            (λ r, ∀ t n, r = Path t n →
                  ∃ path, valid_path g s e path = true ∧ NoDup path ∧
                          Z.of_nat (length path) = n ∧ path_turns path = t)
            _ _ _ _ mt_wf_config_init Hr t n eq_refl).
  clear t n Hr. intros [[V rt tc h]|[V rt tc h] t curr todo] r; simpl.
  - intros [Hwf _]. destruct h as [|[t curr] rest].
    + destruct (make_path e rt) eqn:Hmp; simpl; try done.
      intros [= <-] t n ->. by eapply (mt_make_path_sound _ _ _ Hwf).
    + case_bool_decide; [done|]. destruct (rt !! curr) as [prev|]; [|done].
      by destruct (find_neighbors g s curr prev).
  - intros _. by destruct todo.
Qed.
(** *** A path is found whenever there is one *)

Lemma mt_closed_init : closed g (init s).
Proof. intros p q Hp. by apply elem_of_empty in Hp. Qed.

Lemma mt_closed_step c c' :
  closed g c → step g s e c = Next c' → closed g c'.
Proof.
  destruct c as [[V rt tc h]|[V rt tc h] t curr todo]; unfold closed; simpl.
  - intros Hcl. destruct h as [|[t curr] rest]; [by destruct (make_path _ _)|].
    case_bool_decide as Hv.
    + intros [= <-] p q Hp Hedge. simpl in *.
      destruct (Hcl p q Hp Hedge) as [?|[[l [[= -> ->]|Hl]%elem_of_cons]|[]]]; eauto.
    + destruct (rt !! curr) as [prev|]; [|discriminate].
      destruct (find_neighbors g s curr prev) as [nbs|] eqn:Hnbs; [|discriminate].
      intros [= <-] p q Hp Hedge. simpl in *.
      apply elem_of_union in Hp as [->%elem_of_singleton|Hp].
      * right. right. split; [done|]. destruct Hedge as [Hadj Hopen].
        destruct (adjacent_offset _ _ Hadj) as (y & x & Hin & ->).
        apply mt_find_neighbors_cells in Hnbs.
        by eapply ShortestRouteProofs.sr_scan_neighbors_complete.
      * destruct (Hcl p q Hp Hedge) as [?|[[l [[= -> ->]|Hl]%elem_of_cons]|[]]];
          [left; set_solver|left; set_solver|eauto].
  - intros Hcl. destruct todo as [|nb todo].
    { intros [= <-] p q Hp Hedge. simpl in *.
      destruct (Hcl p q Hp Hedge) as [?|[?|[_ []%elem_of_nil]]]; eauto. }
    intros [= <-]. destruct (decide (nb.1 ∈ V)) as [Hnb|Hnb].
    + rewrite mt_relax_visited by done. intros p q Hp Hedge. simpl in *.
      destruct (Hcl p q Hp Hedge) as [?|[?|[-> [->|?]%elem_of_cons]]]; eauto.
    + destruct (mt_relax_unvisited (State V rt tc h) t curr nb Hnb) as (rt' & -> & _).
      intros p q Hp Hedge. simpl in *.
      destruct (Hcl p q Hp Hedge) as [?|[[l Hl]|[-> [->|?]%elem_of_cons]]]; eauto.
      * right. left. exists l. apply elem_of_heappush. by right.
      * right. left. eexists. apply elem_of_heappush. by left.
Qed.

Lemma mt_search_complete :
  square g → connected g s e → s ≠ e →
  ∃ t n, search g s e = Returns (Path t n).
Proof.
  intros Hsq Hconn Hne. destruct (mt_search_returns Hsq) as [r Hr].
  destruct r as [t n|]; [by eauto|]. exfalso.
  unfold search, search_for in Hr.
  refine (run_returns_inv (step g s e) (λ c, wf_config g s c ∧ closed g c) _
            (λ r, r ≠ NoPathFound) _ _ _ _ _ Hr eq_refl).
  - intros c c' [Hwf Hcl] Hstep.
    split; [by eapply mt_wf_config_step|by eapply mt_closed_step].
  - intros [[V rt tc h]|[V rt tc h] t curr todo] r; simpl.
    + intros [[Hwf Hs] Hcl]. destruct h as [|[t curr] rest].
      * simpl in *. destruct Hs as [Hs|[_ ?]]; [|done].
        assert (Hall : ∀ x, connected g s x → x ∈ V).
        { induction 1 as [|p q _ IH Hedge]; [done|].
          destruct (Hcl p q IH Hedge) as [?|[[l []%elem_of_nil]|[]]]. done. }
        destruct (wf_chain _ _ _ Hwf e (Hall e Hconn)) as (l & Hc & _).
        assert (Hkey : is_Some (rt !! e)).
        { eapply chain_keys; [exact Hc|]. apply head_Some_elem_of.
          by eapply chain_head. }
        destruct Hkey as [[v|] He]; [|by destruct Hne; symmetry; eapply wf_root].
        unfold make_path, make_path_for, route_get. simpl. rewrite He.
        destruct (walk _ _ _); simpl; [by intros [= <-]|done..].
      * case_bool_decide; [done|]. destruct (rt !! curr) as [prev|]; [|done].
        by destruct (find_neighbors g s curr prev).
    + intros _. by destruct todo.
  - split; [apply mt_wf_config_init|apply mt_closed_init].
Qed.
End WithSelf.
End MinTurnsProofs.

(** * The searches against their specification *)

(** C1.  [ShortestRoute.search] does not always return the length of a
    shortest path: on [pocket_grid] from (1,1) to the adjacent open cell
    (2,1) it returns 4, the number of cells of the walk
    (1,1), (1,2), (2,2), (2,1), although the two cells (1,1), (2,1) are a
    valid path. *)
Theorem shortest_route_returns_longer_path :
  ShortestRoute.search pocket_grid (1, 1) (2, 1)
    = Returns (ShortestRoute.PathLength 4) ∧
  valid_path pocket_grid (1, 1) (2, 1) [(1, 1); (2, 1)] = true ∧
  Z.of_nat (length [(1, 1); (2, 1)]) = 2.
Proof. split; [|split]; vm_compute; reflexivity. Qed.

(** C2.  [MinTurns.search] does not always return the fewest turns: on
    [bend_grid] from (0,0) to (1,2) it reports 2 turns over 4 cells,
    although the path (0,0), (1,0), (1,1), (1,2) is valid and has a single
    turn. *)
Theorem min_turns_returns_more_turns :
  MinTurns.search bend_grid (0, 0) (1, 2) = Returns (MinTurns.Path 2 4) ∧
  valid_path bend_grid (0, 0) (1, 2) [(0, 0); (1, 0); (1, 1); (1, 2)] = true ∧
  path_turns [(0, 0); (1, 0); (1, 1); (1, 2)] = 1.
Proof. split; [|split]; vm_compute; reflexivity. Qed.

(** C3.  The neighbours of one expansion do not get the same candidate
    length: [length] is incremented once per neighbour handled.  On
    [open_grid3] the start (1,1) is popped with length 1 and its four
    neighbours are pushed, and recorded in [route], with 2, 3, 4 and 5. *)
Theorem shortest_route_candidates_accumulate :
  (ShortestRoute.open_pos ∘ ShortestRoute.cfg_state) <$>
    steps (ShortestRoute.step open_grid3 (0, 0)) 5 (ShortestRoute.init (1, 1))
    = Some [(2, (1, 2)); (3, (0, 1)); (4, (1, 0)); (5, (2, 1))] ∧
  (λ c, ShortestRoute.route (ShortestRoute.cfg_state c) !! (2, 1)) <$>
    steps (ShortestRoute.step open_grid3 (0, 0)) 5 (ShortestRoute.init (1, 1))
    = Some (Some (5, Some (1, 1))).
Proof. split; vm_compute; reflexivity. Qed.

(** C4.  [turn_count] is mutated downward only: along a run of
    [MinTurns.search], whenever a cell has a recorded turn count [v], the
    count recorded for it at any later point of the run (in particular
    right after any later write) is at most [v]. *)
Theorem turn_count_never_increases g s e c c' p v :
  reachable (MinTurns.step g s e) (MinTurns.init s) c →
  reachable (MinTurns.step g s e) c c' →
  MinTurns.turn_count (MinTurns.cfg_state c) !! p = Some v →
  ∃ v', MinTurns.turn_count (MinTurns.cfg_state c') !! p = Some v' ∧ v' ≤ v.
Proof.
  intros Hc Hrun. revert v. induction Hrun as [|c1 c2 Hrun IH Hstep]; intros v Hv.
  - exists v. split; [done|lia].
  - destruct (IH v Hv) as (v1 & Hv1 & Hle1).
    assert (Hinv : MinTurns.invariant g s c1).
    { apply (MinTurnsProofs.reachable_invariant g s e).
      by eapply reachable_trans. }
    destruct (MinTurnsProofs.turn_count_step g s e c1 c2 p v1 Hinv Hstep Hv1)
      as (v2 & Hv2 & Hle2).
    exists v2. split; [done|lia].
Qed.

(** On [open_grid2] from (0,0) to (1,1): the cell (1,1) gets count 1 when
    (0,1) is expanded (7 steps in), and still has at most 1 six steps
    later, after (1,0) has reached it too. *)
Lemma turn_count_never_increases_witness :
  ∃ c c' v',
    steps (MinTurns.step open_grid2 (0, 0) (1, 1)) 7 (MinTurns.init (0, 0)) = Some c ∧
    steps (MinTurns.step open_grid2 (0, 0) (1, 1)) 6 c = Some c' ∧
    MinTurns.turn_count (MinTurns.cfg_state c) !! (1, 1) = Some 1 ∧
    MinTurns.turn_count (MinTurns.cfg_state c') !! (1, 1) = Some v' ∧ v' ≤ 1.
Proof.
  destruct (steps (MinTurns.step open_grid2 (0, 0) (1, 1)) 7 (MinTurns.init (0, 0)))
    as [c|] eqn:Hc; [|by vm_compute in Hc].
  destruct (steps (MinTurns.step open_grid2 (0, 0) (1, 1)) 6 c)
    as [c'|] eqn:Hc'.
  2:{ vm_compute in Hc. injection Hc as <-. by vm_compute in Hc'. }
  assert (Hv : MinTurns.turn_count (MinTurns.cfg_state c) !! (1, 1) = Some 1).
  { vm_compute in Hc. injection Hc as <-. reflexivity. }
  destruct (turn_count_never_increases open_grid2 (0, 0) (1, 1) c c' (1, 1) 1
              (steps_reachable _ _ _ _ Hc) (steps_reachable _ _ _ _ Hc') Hv)
    as (v' & Hv' & Hle).
  exists c, c', v'. repeat split; done.
Defined.

(** C5.  With [start_pos == end_pos], [MinTurns.search] does not return
    zero turns and length 1: [route[start_pos]] is [None], which
    [make_path] takes for a missing route, so the result is
    'No path found.'.  Here on the one-cell grid. *)
Theorem min_turns_same_cell_no_path :
  MinTurns.search single_grid (0, 0) (0, 0) = Returns MinTurns.NoPathFound ∧
  is_openb single_grid (0, 0) = true.
Proof. split; vm_compute; reflexivity. Qed.

(** C6.  With [start_pos == end_pos], [ShortestRoute.search] returns
    length 1, on every grid and for every positive amount of fuel. *)
Theorem shortest_route_same_cell g s :
  ShortestRoute.search g s s = Returns (ShortestRoute.PathLength 1) ∧
  ∀ fuel, ShortestRoute.search_for g s s (S fuel)
          = Returns (ShortestRoute.PathLength 1).
Proof.
  assert (Hstep : ShortestRoute.step g s (ShortestRoute.init s)
                  = Halt (ShortestRoute.PathLength 1)).
  { simpl. rewrite bool_decide_eq_true_2 by done.
    unfold ShortestRoute.make_path, ShortestRoute.make_path_from.
    rewrite map_size_singleton. simpl. by rewrite lookup_singleton_eq. }
  assert (Hrun : ∀ fuel, ShortestRoute.search_for g s s (S fuel)
                         = Returns (ShortestRoute.PathLength 1)).
  { intros fuel. unfold ShortestRoute.search_for.
    change (run ?f (S ?n) ?c) with
      (match f c with Next c' => run f n c' | Halt r => Returns r
                 | Fail e => Raises e | Hang => OutOfFuel end).
    by rewrite Hstep. }
  split; [|done]. unfold ShortestRoute.search.
  destruct (search_fuel g) as [|fuel] eqn:Hfuel; [unfold search_fuel in Hfuel; lia|].
  apply Hrun.
Qed.

(** C7.  On the grid ['.x.', '...', '.x.'] from (0,0) to (0,2),
    [ShortestRoute.search] returns length 5 and [MinTurns.search] reports
    exactly 2 turns (over a path of 5 cells). *)
Theorem detour_grid_results :
  ShortestRoute.search detour_grid (0, 0) (0, 2)
    = Returns (ShortestRoute.PathLength 5) ∧
  MinTurns.search detour_grid (0, 0) (0, 2) = Returns (MinTurns.Path 2 5).
Proof. split; vm_compute; reflexivity. Qed.

Lemma connected_first_step g s e :
  connected g s e → e = s ∨ ∃ q, edge g s q.
Proof.
  induction 1 as [|p q _ [->|IH] Hedge]; [by left|right; eauto|by right].
Qed.

(** A start without open neighbour is connected to no other cell. *)
Lemma isolated_not_connected g s e :
  s ≠ e → (∀ q, ¬ edge g s q) → ¬ connected g s e.
Proof.
  intros Hne Hiso [->|[q Hq]]%connected_first_step; [done|]. by eapply Hiso.
Qed.

(** C8.  On a square grid, when the end is not connected to the start
    through open cells, both searches return 'No path found.'.  (By
    [isolated_not_connected] this covers a start without open neighbour and
    a different end.) *)
Theorem disconnected_no_path g s e :
  square g → ¬ connected g s e →
  MinTurns.search g s e = Returns MinTurns.NoPathFound ∧
  ShortestRoute.search g s e = Returns ShortestRoute.NoPathFound.
Proof.
  intros Hsq Hnc. split.
  - by apply MinTurnsProofs.mt_search_disconnected.
  - by apply ShortestRouteProofs.sr_search_disconnected.
Qed.

(** On [walled_grid] the start (0,0) has no open neighbour. *)
Lemma disconnected_no_path_witness :
  square walled_grid ∧ ¬ connected walled_grid (0, 0) (1, 1) ∧
  MinTurns.search walled_grid (0, 0) (1, 1) = Returns MinTurns.NoPathFound ∧
  ShortestRoute.search walled_grid (0, 0) (1, 1)
    = Returns ShortestRoute.NoPathFound.
Proof.
  assert (Hsq : square walled_grid) by (repeat constructor).
  assert (Hnc : ¬ connected walled_grid (0, 0) (1, 1)).
  { apply isolated_not_connected; [done|].
    intros [r c] [Hadj [[Hr Hc] (ch & Hch & Hbar)]].
    unfold adjacent in Hadj. simpl in *.
    assert ((r = 0 ∧ c = 1) ∨ (r = 1 ∧ c = 0)) as [[-> ->]|[-> ->]] by lia;
      vm_compute in Hch; injection Hch as <-; discriminate. }
  split; [done|]. split; [done|].
  exact (disconnected_no_path walled_grid (0, 0) (1, 1) Hsq Hnc).
Defined.

(** C9.  On a square grid both searches terminate: each returns a result
    within [search_fuel] steps, a bound that grows with the number of
    cells, since every step uses up a cell to finalise, a heap entry to
    pop or a neighbour to handle. *)
Theorem searches_terminate g s e :
  square g →
  ∃ r1 r2,
    (∀ fuel, (search_fuel g ≤ fuel)%nat →
             MinTurns.search_for g s e fuel = Returns r1) ∧
    (∀ fuel, (search_fuel g ≤ fuel)%nat →
             ShortestRoute.search_for g s e fuel = Returns r2).
Proof.
  intros Hsq.
  destruct (MinTurnsProofs.mt_search_returns g s e Hsq) as [r1 Hr1].
  destruct (ShortestRouteProofs.sr_search_returns g s e Hsq) as [r2 Hr2].
  exists r1, r2. split; intros fuel Hfuel.
  - by apply MinTurnsProofs.mt_search_for_enough.
  - by apply ShortestRouteProofs.sr_search_for_enough.
Qed.

Lemma searches_terminate_witness :
  square open_grid2 ∧
  ∃ r1 r2,
    (∀ fuel, (search_fuel open_grid2 ≤ fuel)%nat →
             MinTurns.search_for open_grid2 (0, 0) (1, 1) fuel = Returns r1) ∧
    (∀ fuel, (search_fuel open_grid2 ≤ fuel)%nat →
             ShortestRoute.search_for open_grid2 (0, 0) (1, 1) fuel = Returns r2).
Proof.
  assert (Hsq : square open_grid2) by (repeat constructor).
  split; [done|]. exact (searches_terminate open_grid2 (0, 0) (1, 1) Hsq).
Defined.

(** C10.  With an open start, in every configuration either search
    reaches, the entries of [route] link back to the start: each entry
    written belongs to a cell not yet finalised and points to an open,
    adjacent cell already in [visited]; the start's entry alone ends the
    chains; and the walk of [make_path] from any key of [route] meets no
    missing key and no cycle and arrives at the start. *)
Theorem route_links_back g s e :
  is_open g s →
  (∀ c, reachable (MinTurns.step g s e) (MinTurns.init s) c →
        MinTurns.links_back g s e c) ∧
  (∀ c, reachable (ShortestRoute.step g e) (ShortestRoute.init s) c →
        ShortestRoute.links_back g s e c).
Proof.
  intros Hs. split; intros c Hc.
  - apply MinTurnsProofs.mt_reachable_wf in Hc. split; [|split].
    + intros c' p o Hstep Hnew Hold.
      destruct (MinTurnsProofs.mt_route_write g s e c c' p o Hc Hstep Hnew Hold)
        as (Hp & v & q & -> & Hq & Hadj & Hopen).
      split; [done|]. exists v, q. repeat (split; [done|]).
      by destruct Hopen as [->|?].
    + intros p. by eapply MinTurnsProofs.mt_root_unique.
    + intros w Hw. by eapply MinTurnsProofs.mt_walk_total.
  - apply ShortestRouteProofs.sr_reachable_wf in Hc. split; [|split].
    + intros c' p v o Hstep Hnew Hold.
      destruct (ShortestRouteProofs.sr_route_write g s e c c' p v o Hc Hstep Hnew Hold)
        as (Hp & q & -> & Hq & Hadj & Hopen).
      split; [done|]. exists q. repeat (split; [done|]).
      by destruct Hopen as [->|?].
    + intros p. by eapply ShortestRouteProofs.sr_root_unique.
    + intros p Hp. by eapply ShortestRouteProofs.sr_walk_total.
Qed.

Lemma route_links_back_witness :
  is_open open_grid2 (0, 0) ∧
  (∀ c, reachable (MinTurns.step open_grid2 (0, 0) (1, 1)) (MinTurns.init (0, 0)) c →
        MinTurns.links_back open_grid2 (0, 0) (1, 1) c) ∧
  (∀ c, reachable (ShortestRoute.step open_grid2 (1, 1))
                  (ShortestRoute.init (0, 0)) c →
        ShortestRoute.links_back open_grid2 (0, 0) (1, 1) c).
Proof.
  assert (Hs : is_open open_grid2 (0, 0)).
  { split; [split; simpl; lia|]. exists "."%char. split; reflexivity. }
  split; [done|]. exact (route_links_back open_grid2 (0, 0) (1, 1) Hs).
Defined.
(** * The maze generator and the driver *)

Lemma length_string_of_list_ascii (l : list ascii) :
  String.length (string_of_list_ascii l) = length l.
Proof. induction l as [|a l IH]; simpl; congruence. Qed.

Section MazeFacts.
Context (randint : nat → Z).
Hypothesis randint_range : ∀ k, 0 ≤ randint k ≤ 3.

Lemma maze_line_chars_ok n calls :
  ∃ chars, Main.maze_line_chars randint n calls = Ok chars ∧
           length chars = n ∧
           Forall (λ ch, ch = "."%char ∨ ch = "x"%char) chars.
Proof.
  revert calls. induction n as [|n IH]; intros calls; simpl.
  { exists []. by repeat split. }
  assert (∃ ch, Main.py_index Main.items (randint calls) = Some ch ∧
                (ch = "."%char ∨ ch = "x"%char)) as (ch & -> & Hch).
  { pose proof (randint_range calls) as Hr. unfold Main.py_index.
    destruct (0 <=? randint calls) eqn:Hle; [|lia].
    assert (randint calls = 0 ∨ randint calls = 1 ∨ randint calls = 2 ∨
            randint calls = 3) as [-> | [-> | [-> | ->]]] by lia; simpl; eauto. }
  destruct (IH (S calls)) as (chars & -> & Hlen & Hall).
  exists (ch :: chars). split; [done|]. split; [simpl; congruence|by constructor].
Qed.

Lemma maze_lines_ok size n calls :
  ∃ lines, Main.maze_lines randint size n calls = Ok lines ∧
           length lines = n ∧
           Forall (λ row, String.length row = Z.to_nat size ∧
                          Forall (λ ch, ch = "."%char ∨ ch = "x"%char)
                                 (list_ascii_of_string row)) lines.
Proof.
  revert calls. induction n as [|n IH]; intros calls; simpl.
  { exists []. by repeat split. }
  unfold Main.make_maze_line.
  destruct (maze_line_chars_ok (Z.to_nat size) calls) as (chars & -> & Hlen & Hall).
  destruct (IH (calls + Z.to_nat size)%nat) as (lines & -> & Hlines & Hrows).
  eexists. split; [done|]. split; [simpl; congruence|].
  constructor; [|done]. split.
  - by rewrite length_string_of_list_ascii.
  - by rewrite list_ascii_of_string_of_list_ascii.
Qed.

Lemma make_maze_ok size calls :
  ∃ maze, Main.make_maze randint size calls = Ok maze ∧
          length maze = Z.to_nat size ∧ square maze ∧
          ∀ row ch, row ∈ maze → ch ∈ list_ascii_of_string row →
                    ch = "."%char ∨ ch = "x"%char.
Proof.
  destruct (maze_lines_ok size (Z.to_nat size) calls) as (maze & Hm & Hlen & Hrows).
  exists maze. split; [done|]. split; [done|]. rewrite Forall_forall in Hrows. split.
  - apply Forall_forall. intros row Hrow. rewrite Hlen. by apply Hrows.
  - intros row ch Hrow Hch. destruct (Hrows row Hrow) as [_ Hall].
    rewrite Forall_forall in Hall. by apply Hall.
Qed.
End MazeFacts.

Lemma cycle_range k : 0 ≤ Main.cycle k ≤ 3.
Proof.
  unfold Main.cycle. pose proof (Nat.mod_upper_bound k 4). lia.
Qed.
(** * Further properties of the code *)

(** X1.  On a square grid [ShortestRoute.find_neighbors] raises nothing and
    returns, without repetition, exactly the cells one step from
    [curr_pos] that lie in the grid and are not barriers. *)
Theorem find_neighbors_exact g curr :
  square g →
  ∃ l, ShortestRoute.find_neighbors g curr = Ok l ∧ NoDup l ∧
       (length l ≤ 4)%nat ∧ ∀ q, q ∈ l ↔ edge g curr q.
Proof. apply ShortestRouteProofs.sr_find_neighbors_exact. Qed.

Lemma find_neighbors_exact_witness :
  square open_grid2 ∧
  ∃ l, ShortestRoute.find_neighbors open_grid2 (0, 0) = Ok l ∧ NoDup l ∧
       (length l ≤ 4)%nat ∧ ∀ q, q ∈ l ↔ edge open_grid2 (0, 0) q.
Proof.
  assert (Hsq : square open_grid2) by (repeat constructor).
  split; [done|]. exact (find_neighbors_exact open_grid2 (0, 0) Hsq).
Defined.

(** X2.  Whenever [MinTurns.find_neighbors] returns, its positions are, in
    the same order, the list [ShortestRoute.find_neighbors] returns for the
    same cell. *)
Theorem min_turns_neighbors_same_cells g s curr prev l :
  MinTurns.find_neighbors g s curr prev = Ok l →
  ShortestRoute.find_neighbors g curr = Ok l.*1.
Proof. apply MinTurnsProofs.mt_find_neighbors_cells. Qed.

Lemma min_turns_neighbors_same_cells_witness :
  MinTurns.find_neighbors open_grid2 (0, 0) (0, 1) (Some (0, (0, 0)))
    = Ok [((0, 0), false); ((1, 1), true)] ∧
  ShortestRoute.find_neighbors open_grid2 (0, 1) = Ok [(0, 0); (1, 1)].
Proof.
  assert (H : MinTurns.find_neighbors open_grid2 (0, 0) (0, 1) (Some (0, (0, 0)))
              = Ok [((0, 0), false); ((1, 1), true)]) by reflexivity.
  split; [done|].
  exact (min_turns_neighbors_same_cells open_grid2 (0, 0) (0, 1) _ _ H).
Defined.

(** X3.  The flag [is_turn] of a neighbour listed by
    [MinTurns.find_neighbors] is [False] at the start; elsewhere, when the
    recorded predecessor is one step away, it tells whether the axis of the
    step into [curr_pos] differs from the axis of the step to the
    neighbour. *)
Theorem is_turn_is_axis_change g s curr prev l nb :
  MinTurns.find_neighbors g s curr prev = Ok l → nb ∈ l →
  (curr = s → nb.2 = false) ∧
  (∀ c from, curr ≠ s → prev = Some (c, from) → adjacent from curr →
     nb.2 = negb (axis_eqb (step_axis from curr) (step_axis curr nb.1))).
Proof.
  intros Hl Hnb. apply MinTurnsProofs.mt_find_neighbors_spec in Hl as [_ Hl].
  destruct (Hl nb Hnb) as [_ Hlisted].
  by apply (MinTurnsProofs.mt_listed_axis s curr prev).
Qed.

Lemma is_turn_is_axis_change_witness :
  MinTurns.find_neighbors open_grid2 (0, 0) (0, 1) (Some (0, (0, 0)))
    = Ok [((0, 0), false); ((1, 1), true)] ∧
  (((0, 1) : pos) = (0, 0) → true = false) ∧
  (∀ c from, ((0, 1) : pos) ≠ (0, 0) → Some (0, ((0, 0) : pos)) = Some (c, from) →
     adjacent from (0, 1) →
     true = negb (axis_eqb (step_axis from (0, 1)) (step_axis (0, 1) (1, 1)))).
Proof.
  assert (H : MinTurns.find_neighbors open_grid2 (0, 0) (0, 1) (Some (0, (0, 0)))
              = Ok [((0, 0), false); ((1, 1), true)]) by reflexivity.
  split; [done|].
  exact (is_turn_is_axis_change open_grid2 (0, 0) (0, 1) _ _ ((1, 1), true) H
           (list_elem_of_further _ _ _ (list_elem_of_here _ _))).
Defined.

(** X4.  Called with no predecessor ([prev_pos] is [None]) at a cell other
    than the start, [MinTurns.find_neighbors] on a square grid raises
    TypeError as soon as the cell has an open neighbour, and returns the
    empty list when it has none. *)
Theorem find_neighbors_without_predecessor g s curr :
  square g → curr ≠ s →
  ((∃ q, edge g curr q) →
   MinTurns.find_neighbors g s curr None = Err TypeError) ∧
  ((∀ q, ¬ edge g curr q) → MinTurns.find_neighbors g s curr None = Ok []).
Proof. apply MinTurnsProofs.mt_find_neighbors_no_prev. Qed.

Lemma find_neighbors_without_predecessor_witness :
  square open_grid2 ∧ ((0, 1) : pos) ≠ (0, 0) ∧
  ((∃ q, edge open_grid2 (0, 1) q) →
   MinTurns.find_neighbors open_grid2 (0, 0) (0, 1) None = Err TypeError) ∧
  ((∀ q, ¬ edge open_grid2 (0, 1) q) →
   MinTurns.find_neighbors open_grid2 (0, 0) (0, 1) None = Ok []).
Proof.
  assert (Hsq : square open_grid2) by (repeat constructor).
  assert (Hne : ((0, 1) : pos) ≠ (0, 0)) by discriminate.
  split; [done|]. split; [done|].
  exact (find_neighbors_without_predecessor open_grid2 (0, 0) (0, 1) Hsq Hne).
Defined.
(** X5.  From an open start, a length returned by [ShortestRoute.search]
    is the number of cells of a path from start to end that runs over open
    cells, one step at a time, and visits no cell twice. *)
Theorem shortest_route_returns_a_path g s e n :
  is_open g s →
  ShortestRoute.search g s e = Returns (ShortestRoute.PathLength n) →
  ∃ path, valid_path g s e path = true ∧ NoDup path ∧
          Z.of_nat (length path) = n.
Proof. apply ShortestRouteProofs.sr_search_sound. Qed.

Lemma detour_start_open : is_open detour_grid (0, 0).
Proof. split; [split; simpl; lia|]. exists "."%char. split; reflexivity. Qed.

Lemma shortest_route_returns_a_path_witness :
  is_open detour_grid (0, 0) ∧
  ShortestRoute.search detour_grid (0, 0) (0, 2)
    = Returns (ShortestRoute.PathLength 5) ∧
  ∃ path, valid_path detour_grid (0, 0) (0, 2) path = true ∧ NoDup path ∧
          Z.of_nat (length path) = 5.
Proof.
  assert (Hr : ShortestRoute.search detour_grid (0, 0) (0, 2)
               = Returns (ShortestRoute.PathLength 5)) by (vm_compute; reflexivity).
  split; [exact detour_start_open|]. split; [done|].
  exact (shortest_route_returns_a_path detour_grid (0, 0) (0, 2) 5
           detour_start_open Hr).
Defined.

(** X6.  From an open start, the pair returned by [MinTurns.search] is
    the number of turns and the number of cells of one and the same path
    from start to end over open cells, which visits no cell twice. *)
Theorem min_turns_returns_a_path g s e t n :
  is_open g s →
  MinTurns.search g s e = Returns (MinTurns.Path t n) →
  ∃ path, valid_path g s e path = true ∧ NoDup path ∧
          Z.of_nat (length path) = n ∧ path_turns path = t.
Proof. apply MinTurnsProofs.mt_search_sound. Qed.

Lemma min_turns_returns_a_path_witness :
  is_open detour_grid (0, 0) ∧
  MinTurns.search detour_grid (0, 0) (0, 2) = Returns (MinTurns.Path 2 5) ∧
  ∃ path, valid_path detour_grid (0, 0) (0, 2) path = true ∧ NoDup path ∧
          Z.of_nat (length path) = 5 ∧ path_turns path = 2.
Proof.
  assert (Hr : MinTurns.search detour_grid (0, 0) (0, 2)
               = Returns (MinTurns.Path 2 5)) by (vm_compute; reflexivity).
  split; [exact detour_start_open|]. split; [done|].
  exact (min_turns_returns_a_path detour_grid (0, 0) (0, 2) 2 5
           detour_start_open Hr).
Defined.

(** X7.  On a square grid, when the end is connected to the start through
    open cells, [ShortestRoute.search] returns a length, not
    'No path found.'. *)
Theorem shortest_route_finds_connected g s e :
  square g → connected g s e →
  ∃ n, ShortestRoute.search g s e = Returns (ShortestRoute.PathLength n).
Proof. apply ShortestRouteProofs.sr_search_complete. Qed.

Lemma open_grid2_connected : connected open_grid2 (0, 0) (0, 1).
Proof.
  apply connected_step with (0, 0); [constructor|].
  split; [reflexivity|]. split; [split; simpl; lia|].
  exists "."%char. split; reflexivity.
Qed.

Lemma shortest_route_finds_connected_witness :
  square open_grid2 ∧ connected open_grid2 (0, 0) (0, 1) ∧
  ∃ n, ShortestRoute.search open_grid2 (0, 0) (0, 1)
       = Returns (ShortestRoute.PathLength n).
Proof.
  assert (Hsq : square open_grid2) by (repeat constructor).
  split; [done|]. split; [exact open_grid2_connected|].
  exact (shortest_route_finds_connected open_grid2 (0, 0) (0, 1) Hsq
           open_grid2_connected).
Defined.

(** X8.  On a square grid, when the end is connected to the start through
    open cells and is not the start itself, [MinTurns.search] returns a
    pair of turns and length, not 'No path found.'. *)
Theorem min_turns_finds_connected g s e :
  square g → connected g s e → s ≠ e →
  ∃ t n, MinTurns.search g s e = Returns (MinTurns.Path t n).
Proof. apply MinTurnsProofs.mt_search_complete. Qed.

Lemma min_turns_finds_connected_witness :
  square open_grid2 ∧ connected open_grid2 (0, 0) (0, 1) ∧
  ((0, 0) : pos) ≠ (0, 1) ∧
  ∃ t n, MinTurns.search open_grid2 (0, 0) (0, 1) = Returns (MinTurns.Path t n).
Proof.
  assert (Hsq : square open_grid2) by (repeat constructor).
  assert (Hne : ((0, 0) : pos) ≠ (0, 1)) by discriminate.
  split; [done|]. split; [exact open_grid2_connected|]. split; [done|].
  exact (min_turns_finds_connected open_grid2 (0, 0) (0, 1) Hsq
           open_grid2_connected Hne).
Defined.
(** X9.  On any grid, square or not, [ShortestRoute.search] comes to an
    end; when it raises, the exception is an IndexError and the grid is not
    square.  It never raises KeyError: every cell it pops or walks through
    has its entry in [route]. *)
Theorem shortest_route_only_index_error g s e :
  ShortestRoute.search g s e ≠ OutOfFuel ∧
  ∀ x, ShortestRoute.search g s e = Raises x → x = IndexError ∧ ¬ square g.
Proof. apply ShortestRouteProofs.sr_search_ends. Qed.

(** X10.  On any grid, square or not, [MinTurns.search] comes to an end;
    when it raises, the exception is an IndexError and the grid is not
    square.  It never raises KeyError on [route[curr_pos]] nor TypeError
    on [prev_pos[1]]. *)
Theorem min_turns_only_index_error g s e :
  MinTurns.search g s e ≠ OutOfFuel ∧
  ∀ x, MinTurns.search g s e = Raises x → x = IndexError ∧ ¬ square g.
Proof. apply MinTurnsProofs.mt_search_ends. Qed.

(** X11.  On a square grid and for an end other than the start, the two
    searches agree on whether there is a path: one returns
    'No path found.' exactly when the other does. *)
Theorem searches_agree_on_no_path g s e :
  square g → s ≠ e →
  MinTurns.search g s e = Returns MinTurns.NoPathFound ↔
  ShortestRoute.search g s e = Returns ShortestRoute.NoPathFound.
Proof.
  intros Hsq Hne. split; intros Hno.
  - apply ShortestRouteProofs.sr_search_disconnected; [done|]. intros Hconn.
    destruct (MinTurnsProofs.mt_search_complete g s e Hsq Hconn Hne) as (t & n & Hr).
    congruence.
  - apply MinTurnsProofs.mt_search_disconnected; [done|]. intros Hconn.
    destruct (ShortestRouteProofs.sr_search_complete g s e Hsq Hconn) as (n & Hr).
    congruence.
Qed.

Lemma searches_agree_on_no_path_witness :
  square walled_grid ∧ ((0, 0) : pos) ≠ (1, 1) ∧
  (MinTurns.search walled_grid (0, 0) (1, 1) = Returns MinTurns.NoPathFound ↔
   ShortestRoute.search walled_grid (0, 0) (1, 1)
     = Returns ShortestRoute.NoPathFound).
Proof.
  assert (Hsq : square walled_grid) by (repeat constructor).
  assert (Hne : ((0, 0) : pos) ≠ (1, 1)) by discriminate.
  split; [done|]. split; [done|].
  exact (searches_agree_on_no_path walled_grid (0, 0) (1, 1) Hsq Hne).
Defined.



(** X13.  On the empty grid every cell is out of bounds: for an end other
    than the start both searches return 'No path found.', whatever the two
    positions. *)
Theorem empty_grid_no_path s e :
  s ≠ e →
  MinTurns.search [] s e = Returns MinTurns.NoPathFound ∧
  ShortestRoute.search [] s e = Returns ShortestRoute.NoPathFound.
Proof.
  intros Hne.
  assert (Hsq : square []) by constructor.
  assert (Hnc : ¬ connected [] s e).
  { apply isolated_not_connected; [done|].
    intros q [_ [[Hr _] _]]. simpl in Hr. lia. }
  split.
  - by apply MinTurnsProofs.mt_search_disconnected.
  - by apply ShortestRouteProofs.sr_search_disconnected.
Qed.

Lemma empty_grid_no_path_witness :
  ((0, 0) : pos) ≠ (0, 1) ∧
  MinTurns.search [] (0, 0) (0, 1) = Returns MinTurns.NoPathFound ∧
  ShortestRoute.search [] (0, 0) (0, 1) = Returns ShortestRoute.NoPathFound.
Proof.
  assert (Hne : ((0, 0) : pos) ≠ (0, 1)) by discriminate.
  split; [done|]. exact (empty_grid_no_path (0, 0) (0, 1) Hne).
Defined.
(** X14.  Whatever [randint(0, 3)] draws, [make_maze(size)] raises nothing
    and returns a square grid: [size] lines of [size] characters, each '.'
    or 'x' (no line at all for a negative [size]). *)
Theorem make_maze_square randint size calls :
  (∀ k, 0 ≤ randint k ≤ 3) →
  ∃ maze, Main.make_maze randint size calls = Ok maze ∧
          length maze = Z.to_nat size ∧ square maze ∧
          ∀ row ch, row ∈ maze → ch ∈ list_ascii_of_string row →
                    ch = "."%char ∨ ch = "x"%char.
Proof. intros Hr. by apply make_maze_ok. Qed.

Lemma make_maze_square_witness :
  (∀ k, 0 ≤ Main.cycle k ≤ 3) ∧
  ∃ maze, Main.make_maze Main.cycle 3 0 = Ok maze ∧
          length maze = Z.to_nat 3 ∧ square maze ∧
          ∀ row ch, row ∈ maze → ch ∈ list_ascii_of_string row →
                    ch = "."%char ∨ ch = "x"%char.
Proof.
  split; [exact cycle_range|].
  exact (make_maze_square Main.cycle 3 0 cycle_range).
Defined.

(** X15.  Whatever [randint(0, 3)] draws, [main] gets a result from both
    searches on its 60 by 60 maze: neither raises, although nothing makes
    the start (3, 2) or the end (42, 54) an open cell. *)
Theorem main_gets_two_results randint :
  (∀ k, 0 ≤ randint k ≤ 3) →
  ∃ r1 r2, Main.main randint = Ok (Returns r1, Returns r2).
Proof.
  intros Hr. unfold Main.main.
  destruct (make_maze_ok randint Hr 60 0) as (maze & -> & _ & Hsq & _).
  destruct (MinTurnsProofs.mt_search_returns maze Main.start Main.stop Hsq)
    as [r1 ->].
  destruct (ShortestRouteProofs.sr_search_returns maze Main.start Main.stop Hsq)
    as [r2 ->].
  by exists r1, r2.
Qed.

Lemma main_gets_two_results_witness :
  (∀ k, 0 ≤ Main.cycle k ≤ 3) ∧
  ∃ r1 r2, Main.main Main.cycle = Ok (Returns r1, Returns r2).
Proof.
  split; [exact cycle_range|].
  exact (main_gets_two_results Main.cycle cycle_range).
Defined.
(** X16.  Neither search ever finalises a barrier, a cell outside the grid
    or a cell cut off from the start: every cell in [visited] is connected
    to the start through open cells, and is the start itself or an open
    cell of the grid. *)
Theorem visited_cells_are_connected g s e :
  (∀ c p, reachable (MinTurns.step g s e) (MinTurns.init s) c →
          p ∈ MinTurns.visited (MinTurns.cfg_state c) →
          connected g s p ∧ (p = s ∨ is_open g p)) ∧
  (∀ c p, reachable (ShortestRoute.step g e) (ShortestRoute.init s) c →
          p ∈ ShortestRoute.visited (ShortestRoute.cfg_state c) →
          connected g s p ∧ (p = s ∨ is_open g p)).
Proof.
  split; intros c p Hc Hp.
  - apply MinTurnsProofs.mt_reachable_wf in Hc.
    assert (Hwf : MinTurns.wf_state g s (MinTurns.cfg_state c))
      by (destruct c; apply Hc).
    destruct (MinTurns.wf_chain _ _ _ Hwf p Hp) as (l & Hl & _).
    assert (Hkey : is_Some (MinTurns.route (MinTurns.cfg_state c) !! p)).
    { eapply chain_keys; [exact Hl|]. apply head_Some_elem_of. by eapply chain_head. }
    split; [by apply (MinTurns.wf_conn _ _ _ Hwf)|].
    destruct Hkey as [[[v q]|] Hv].
    + right. by destruct (MinTurns.wf_pred _ _ _ Hwf _ _ _ Hv) as (_ & _ & _ & ?).
    + left. by apply (MinTurns.wf_root _ _ _ Hwf).
  - apply ShortestRouteProofs.sr_reachable_wf in Hc.
    assert (Hwf : ShortestRoute.wf_state g s e (ShortestRoute.cfg_state c))
      by (destruct c; apply Hc).
    destruct (ShortestRoute.wf_chain _ _ _ _ Hwf p Hp) as (l & Hl & _).
    assert (Hkey : is_Some (ShortestRoute.route (ShortestRoute.cfg_state c) !! p)).
    { eapply chain_keys; [exact Hl|]. apply head_Some_elem_of. by eapply chain_head. }
    split; [by apply (ShortestRoute.wf_conn _ _ _ _ Hwf)|].
    destruct Hkey as [[v [q|]] Hv].
    + right. by destruct (ShortestRoute.wf_pred _ _ _ _ Hwf _ _ _ Hv) as (_ & _ & _ & ?).
    + left. by apply (ShortestRoute.wf_root _ _ _ _ Hwf _ v).
Qed.
